(** * ecr-watch: the polling loop of [main.go], embedded and verified

    The program is one function, [main]: it resolves its configuration,
    compiles the tag pattern, and then polls an ECR repository until a
    matching image newer than the previously observed one appears.

    The embedding follows the source statement by statement.  The registry
    client, the regular-expression engine and the start-up environment are
    libraries outside the repository: the client and the environment are
    parameters of the model, and a fragment of the regular-expression
    engine is given so that the scenarios can be executed. *)

From Stdlib Require Import List String Ascii ZArith Bool Lia Permutation.
Import ListNotations.
Local Open Scope string_scope.
Local Open Scope list_scope.
Local Open Scope Z_scope.

(** ** Library values used by [main] *)

(** Go's [error] values, as the message they print. *)
Definition error := string.

(** [time.Time] as the instant it denotes, in nanoseconds since the zero
    instant (January 1, year 1, 00:00:00 UTC); [time.Time{}] is that zero
    instant.  [After] and [IsZero] compare instants only. *)
Module time.
Definition Time := Z.
Definition Duration := Z.
Definition zero : Time := 0.
Definition After (t u : Time) : bool := u <? t.
Definition IsZero (t : Time) : bool := t =? 0.
End time.

(** The [aws] pointer helpers: a nil pointer reads as the zero value. *)
Definition aws_StringValue (v : option string) : string :=
  match v with Some s => s | None => "" end.

Definition aws_TimeValue (v : option time.Time) : time.Time :=
  match v with Some t => t | None => time.zero end.

Definition aws_StringValueSlice (src : list (option string)) : list string :=
  map aws_StringValue src.

Definition strings_Join (elems : list string) (sep : string) : string :=
  String.concat sep elems.

(** ** The ECR request and response structures (the fields [main] uses) *)

Module ImageIdentifier.
Record t := mk { ImageDigest : option string; ImageTag : option string }.
End ImageIdentifier.

Module ListImagesInput.
Record t := mk { RepositoryName : option string; NextToken : option string }.
End ListImagesInput.

Module ListImagesOutput.
Record t := mk { ImageIds : list ImageIdentifier.t; NextToken : option string }.
End ListImagesOutput.

Module DescribeImagesInput.
Record t := mk { RepositoryName : option string; ImageIds : list ImageIdentifier.t }.
End DescribeImagesInput.

Module ImageDetail.
Record t := mk { ImagePushedAt : option time.Time; ImageTags : list (option string) }.
End ImageDetail.

Module DescribeImagesOutput.
Record t := mk { ImageDetails : list ImageDetail.t }.
End DescribeImagesOutput.

(** The registry client: each operation either fails or succeeds with data,
    and moves the remote world [W] (other parties push and delete images
    between calls). *)
Record ECR (W : Type) := {
  ecr_ListImages :
    ListImagesInput.t -> W -> (error + ListImagesOutput.t) * W;
  ecr_DescribeImages :
    DescribeImagesInput.t -> W -> (error + DescribeImagesOutput.t) * W
}.
Arguments ecr_ListImages {W}.
Arguments ecr_DescribeImages {W}.

(** The global [config] structure. *)
Record Config := {
  AWSProfile : string;
  AWSRegion : string;
  Repository : string;
  TagPattern : string;
  Interval : time.Duration
}.

(** ** A fragment of Go's [regexp]

    [regexp] is Go's standard library, not part of the repository.  The
    fragment below covers literals, [.], concatenation, alternation, [*],
    [^] and [$] (without flags), with bytes standing for runes, which is
    exact on ASCII text.  [spans r pre mid post] decides whether [r]
    matches exactly [mid] when [pre] precedes it and [post] follows it in
    the text; [MatchString] reports whether the text contains any match,
    as the library documents. *)
Module regexp.

Inductive Regexp :=
| EmptyMatch
| Literal (c : ascii)
| AnyCharNotNL
| Concat (r1 r2 : Regexp)
| Alternate (r1 r2 : Regexp)
| Star (r : Regexp)
| BeginText
| EndText.

Definition is_nil (l : list ascii) : bool :=
  match l with [] => true | _ => false end.

Fixpoint splits (s : list ascii) : list (list ascii * list ascii) :=
  ([], s) ::
  match s with
  | [] => []
  | c :: s' => map (fun ab => (c :: fst ab, snd ab)) (splits s')
  end.

Fixpoint spans (r : Regexp) (pre mid post : list ascii) {struct r} : bool :=
  match r with
  | EmptyMatch => is_nil mid
  | Literal c =>
      match mid with [d] => Ascii.eqb c d | _ => false end
  | AnyCharNotNL =>
      match mid with [d] => negb (Ascii.eqb d "010"%char) | _ => false end
  | Concat r1 r2 =>
      existsb (fun ab => spans r1 pre (fst ab) (snd ab ++ post)
                         && spans r2 (pre ++ fst ab) (snd ab) post)
              (splits mid)
  | Alternate r1 r2 => spans r1 pre mid post || spans r2 pre mid post
  | Star r1 =>
      (fix iter (n : nat) (pre mid : list ascii) {struct n} : bool :=
         is_nil mid ||
         match n with
         | O => false
         | S n' =>
             existsb (fun ab => negb (is_nil (fst ab))
                                && spans r1 pre (fst ab) (snd ab ++ post)
                                && iter n' (pre ++ fst ab) (snd ab))
                     (splits mid)
         end) (List.length mid) pre mid
  | BeginText => is_nil mid && is_nil pre
  | EndText => is_nil mid && is_nil post
  end.

Definition MatchString (re : Regexp) (s : string) : bool :=
  existsb (fun ab =>
             existsb (fun cd => spans re (fst ab) (fst cd) (snd cd))
                     (splits (snd ab)))
          (splits (list_ascii_of_string s)).

(** Patterns written as in Go source, for the scenarios. *)
Fixpoint literal (s : string) : Regexp :=
  match s with
  | EmptyString => EmptyMatch
  | String c EmptyString => Literal c
  | String c s' => Concat (Literal c) (literal s')
  end.

End regexp.

(** ** The process: what it does that can be observed *)

(** The lines [logger] writes to standard error, by the call that writes
    them (the time stamp that [log.LstdFlags] prefixes is left out). *)
Inductive LogLine :=
| LogRunning
| LogMatchedTag (tag : string)
| LogMostRecent (t : time.Time)
| LogSleeping (d : time.Duration)
| LogExiting
| LogFatal (err : error).

Inductive Event :=
| EvLog (l : LogLine)
| EvStdout (s : string)
| EvSleep (d : time.Duration)
| EvListImages (input : ListImagesInput.t) (r : error + ListImagesOutput.t)
| EvDescribeImages (input : DescribeImagesInput.t)
                   (r : error + DescribeImagesOutput.t).

(** The state threaded through [main]: the remote world and the events so
    far, oldest first. *)
Record State (W : Type) := mkState { world : W; trace : list Event }.
Arguments mkState {W}.
Arguments world {W}.
Arguments trace {W}.

(** A computation returns a value, ends the process ([os.Exit]), or is
    still running when its fuel is spent. *)
Inductive Res (A : Type) :=
| Ret (a : A)
| Exit (code : Z)
| Running.
Arguments Ret {A}.
Arguments Exit {A}.
Arguments Running {A}.

Definition M (W A : Type) := State W -> Res A * State W.

Definition ret {W A} (a : A) : M W A := fun s => (Ret a, s).

Definition bind {W A B} (c : M W A) (k : A -> M W B) : M W B :=
  fun s =>
    match c s with
    | (Ret a, s') => k a s'
    | (Exit code, s') => (Exit code, s')
    | (Running, s') => (Running, s')
    end.

Definition emit {W} (e : Event) : M W unit :=
  fun s => (Ret tt, mkState (world s) (trace s ++ [e])).

Definition os_Exit {W A} (code : Z) : M W A := fun s => (Exit code, s).

Definition out_of_fuel {W A} : M W A := fun s => (Running, s).

Declare Scope go_scope.
Delimit Scope go_scope with go.
Notation "x <- c ;; k" := (bind c (fun x => k))
  (at level 100, c at next level, right associativity) : go_scope.
Notation "c ;; k" := (bind c (fun _ => k))
  (at level 100, right associativity) : go_scope.
Local Open Scope go_scope.

Definition logger_Print {W} (l : LogLine) : M W unit := emit (EvLog l).

(** [logger.Fatal]: print, then [os.Exit(1)]. *)
Definition logger_Fatal {W A} (err : error) : M W A :=
  logger_Print (LogFatal err) ;; os_Exit 1.

Definition fmt_Print {W} (s : string) : M W unit := emit (EvStdout s).

Definition time_Sleep {W} (d : time.Duration) : M W unit := emit (EvSleep d).

(** The exit status of the process: returning from [main] is status 0. *)
Definition exitStatus (r : Res unit) : option Z :=
  match r with
  | Ret _ => Some 0
  | Exit code => Some code
  | Running => None
  end.

(** Everything written to standard output, in order. *)
Fixpoint stdout (evs : list Event) : string :=
  match evs with
  | [] => ""
  | EvStdout s :: evs' => (s ++ stdout evs')%string
  | _ :: evs' => stdout evs'
  end.

(** ** The watch loop, lines 60 to 116 *)

(** Lines 97 to 104: one step of the scan over the described details, and
    the scan from the zero time and the empty tag list. *)
Definition newer (cur : time.Time * list string) (imageDetail : ImageDetail.t)
  : time.Time * list string :=
  let imagePushedAt := aws_TimeValue (ImageDetail.ImagePushedAt imageDetail) in
  if time.After imagePushedAt (fst cur)
  then (imagePushedAt, aws_StringValueSlice (ImageDetail.ImageTags imageDetail))
  else cur.

Definition currentMostRecent (imageDetails : list ImageDetail.t)
  : time.Time * list string :=
  fold_left newer imageDetails (time.zero, []).

(** Line 106: the condition under which [main] prints and returns. *)
Definition detected (mostRecentImagePushedAt current : time.Time) : bool :=
  negb (time.IsZero mostRecentImagePushedAt)
  && time.After current mostRecentImagePushedAt.

(** What one turn of the outer [for] does with the loop. *)
Inductive Ctl :=
| Return
| Continue (mostRecentImagePushedAt : time.Time).

Section Watch.

Variable W : Type.
Variable ecrClient : ECR W.
Variable Regexp : Type.
Variable MatchString : Regexp -> string -> bool.
Variable config : Config.
Variable tagRegexp : Regexp.

Definition ListImages (input : ListImagesInput.t)
  : M W (error + ListImagesOutput.t) :=
  fun s =>
    let (r, w) := ecr_ListImages ecrClient input (world s) in
    (Ret r, mkState w (trace s ++ [EvListImages input r])).

Definition DescribeImages (input : DescribeImagesInput.t)
  : M W (error + DescribeImagesOutput.t) :=
  fun s =>
    let (r, w) := ecr_DescribeImages ecrClient input (world s) in
    (Ret r, mkState w (trace s ++ [EvDescribeImages input r])).

(** Line 74: the test an identifier passes to be appended. *)
Definition matched (imageID : ImageIdentifier.t) : bool :=
  MatchString tagRegexp (aws_StringValue (ImageIdentifier.ImageTag imageID)).

(** Lines 73 to 78: the range over one page. *)
Fixpoint rangeImageIds (page imageIDs : list ImageIdentifier.t)
  : M W (list ImageIdentifier.t) :=
  match page with
  | [] => ret imageIDs
  | imageID :: page' =>
      let tag := aws_StringValue (ImageIdentifier.ImageTag imageID) in
      if MatchString tagRegexp tag
      then logger_Print (LogMatchedTag tag) ;;
           rangeImageIds page' (imageIDs ++ [imageID])
      else rangeImageIds page' imageIDs
  end.

(** Lines 67 to 85: the pagination loop; [pages] bounds the number of
    pages read. *)
Fixpoint listLoop (pages : nat) (listImagesInput : ListImagesInput.t)
                  (imageIDs : list ImageIdentifier.t)
  : M W (list ImageIdentifier.t) :=
  match pages with
  | O => out_of_fuel
  | S pages' =>
      r <- ListImages listImagesInput ;;
      match r with
      | inl err => logger_Fatal err
      | inr listImagesOutput =>
          imageIDs' <- rangeImageIds
                         (ListImagesOutput.ImageIds listImagesOutput)
                         imageIDs ;;
          match ListImagesOutput.NextToken listImagesOutput with
          | Some nextToken =>
              listLoop pages'
                (ListImagesInput.mk
                   (ListImagesInput.RepositoryName listImagesInput)
                   (Some nextToken))
                imageIDs'
          | None => ret imageIDs'
          end
      end
  end.

(** Lines 87 to 104: describe the accumulated identifiers and pick the
    newest detail. *)
Definition describeNewest (imageIDs : list ImageIdentifier.t)
  : M W (time.Time * list string) :=
  r <- DescribeImages
         (DescribeImagesInput.mk (Some (Repository config)) imageIDs) ;;
  match r with
  | inl err => logger_Fatal err
  | inr describeImagesOutput =>
      ret (currentMostRecent
             (DescribeImagesOutput.ImageDetails describeImagesOutput))
  end.

(** Lines 62 to 104: what one poll cycle observes. *)
Definition observe (pages : nat) : M W (time.Time * list string) :=
  imageIDs <- listLoop pages
                (ListImagesInput.mk (Some (Repository config)) None) [] ;;
  describeNewest imageIDs.

(** Lines 62 to 115: one poll cycle. *)
Definition cycle (pages : nat) (mostRecentImagePushedAt : time.Time)
  : M W Ctl :=
  current <- observe pages ;;
  if detected mostRecentImagePushedAt (fst current)
  then logger_Print LogExiting ;;
       fmt_Print (strings_Join (snd current) ",") ;;
       ret Return
  else logger_Print (LogMostRecent (fst current)) ;;
       logger_Print (LogSleeping (Interval config)) ;;
       time_Sleep (Interval config) ;;
       ret (Continue (fst current)).

(** Lines 61 to 116: the outer loop; [cycles] bounds the number of poll
    cycles. *)
Fixpoint watch (pages cycles : nat) (mostRecentImagePushedAt : time.Time)
  : M W unit :=
  match cycles with
  | O => out_of_fuel
  | S cycles' =>
      c <- cycle pages mostRecentImagePushedAt ;;
      match c with
      | Return => ret tt
      | Continue t => watch pages cycles' t
      end
  end.

End Watch.

(** ** [main], lines 26 to 60: start-up, then the loop *)

(** What the environment answers at start-up: the [-h] flag, the outcome
    of [envconfig.Process] (the populated [config], or an error), the text
    [envconfig.Usage] writes to standard output, the pattern compiler and
    the outcome of creating the session for a profile and a region. *)
Record Startup (Regexp : Type) := {
  flag_h : bool;
  envconfig_Process : error + Config;
  envconfig_Usage : string;
  regexp_Compile : string -> error + Regexp;
  session_NewSessionWithOptions : string -> string -> option error
}.
Arguments flag_h {Regexp}.
Arguments envconfig_Process {Regexp}.
Arguments envconfig_Usage {Regexp}.
Arguments regexp_Compile {Regexp}.
Arguments session_NewSessionWithOptions {Regexp}.

Section Main.

Variable W : Type.
Variable ecrClient : ECR W.
Variable Regexp : Type.
Variable MatchString : Regexp -> string -> bool.
Variable env : Startup Regexp.

Definition main (pages cycles : nat) : M W unit :=
  if flag_h env
  then fmt_Print (envconfig_Usage env)
  else
    match envconfig_Process env with
    | inl err => logger_Fatal err
    | inr config =>
        match regexp_Compile env (TagPattern config) with
        | inl err => logger_Fatal err
        | inr tagRegexp =>
            match session_NewSessionWithOptions env
                    (AWSProfile config) (AWSRegion config) with
            | Some err => logger_Fatal err
            | None =>
                logger_Print LogRunning ;;
                watch W ecrClient Regexp MatchString config tagRegexp
                      pages cycles time.zero
            end
        end
    end.

End Main.

Arguments ListImages {W} ecrClient input.
Arguments DescribeImages {W} ecrClient input.
Arguments matched {Regexp} MatchString tagRegexp imageID.
Arguments rangeImageIds {W Regexp} MatchString tagRegexp page imageIDs.
Arguments listLoop {W} ecrClient {Regexp} MatchString tagRegexp
  pages listImagesInput imageIDs.
Arguments describeNewest {W} ecrClient config imageIDs.
Arguments observe {W} ecrClient {Regexp} MatchString config tagRegexp pages.
Arguments cycle {W} ecrClient {Regexp} MatchString config tagRegexp
  pages mostRecentImagePushedAt.
Arguments watch {W} ecrClient {Regexp} MatchString config tagRegexp
  pages cycles mostRecentImagePushedAt.
Arguments main {W} ecrClient {Regexp} MatchString env pages cycles.

(** ** A scripted registry, for running scenarios

    The remote world is the list of answers it will give to each
    operation, in order; a call beyond the script fails. *)
Module Script.

Record World := mk {
  lists : list (error + ListImagesOutput.t);
  describes : list (error + DescribeImagesOutput.t)
}.

Definition client : ECR World := {|
  ecr_ListImages := fun _ w =>
    match lists w with
    | [] => (inl "script: no more pages", w)
    | r :: rs => (r, mk rs (describes w))
    end;
  ecr_DescribeImages := fun _ w =>
    match describes w with
    | [] => (inl "script: no more descriptions", w)
    | r :: rs => (r, mk (lists w) rs)
    end
|}.

Definition start (w : World) : State World := mkState w [].

Definition tagged (digest tag : string) : ImageIdentifier.t :=
  ImageIdentifier.mk (Some digest) (Some tag).

Definition untagged (digest : string) : ImageIdentifier.t :=
  ImageIdentifier.mk (Some digest) None.

Definition page (ids : list ImageIdentifier.t) (next : option string)
  : error + ListImagesOutput.t :=
  inr (ListImagesOutput.mk ids next).

Definition detail (pushedAt : time.Time) (tags : list string)
  : ImageDetail.t :=
  ImageDetail.mk (Some pushedAt) (map Some tags).

Definition details (ds : list ImageDetail.t)
  : error + DescribeImagesOutput.t :=
  inr (DescribeImagesOutput.mk ds).

(** The patterns of the scenarios, compiled: [^latest$], [latest], [.*]
    and the empty pattern. *)
Definition anchoredLatest : regexp.Regexp :=
  regexp.Concat regexp.BeginText
    (regexp.Concat (regexp.literal "latest") regexp.EndText).

Definition dotStar : regexp.Regexp := regexp.Star regexp.AnyCharNotNL.

Definition compile (pattern : string) : error + regexp.Regexp :=
  if String.eqb pattern "^latest$" then inr anchoredLatest
  else if String.eqb pattern "latest" then inr (regexp.literal "latest")
  else if String.eqb pattern ".*" then inr dotStar
  else if String.eqb pattern "" then inr regexp.EmptyMatch
  else inl "script: pattern not among the scenarios".

Definition config (pattern : string) : Config := {|
  AWSProfile := "";
  AWSRegion := "us-east-1";
  Repository := "app";
  TagPattern := pattern;
  Interval := 30000000000
|}.

Definition env (pattern : string) : Startup regexp.Regexp := {|
  flag_h := false;
  envconfig_Process := inr (config pattern);
  envconfig_Usage := "";
  regexp_Compile := compile;
  session_NewSessionWithOptions := fun _ _ => None
|}.

End Script.

(** ** Vocabulary of the properties *)

Definition pushedAt (d : ImageDetail.t) : time.Time :=
  aws_TimeValue (ImageDetail.ImagePushedAt d).

Definition tagsOf (d : ImageDetail.t) : list string :=
  aws_StringValueSlice (ImageDetail.ImageTags d).

Definition tagOf (imageID : ImageIdentifier.t) : string :=
  aws_StringValue (ImageIdentifier.ImageTag imageID).

(** The error of a registry call that failed. *)
Definition failed (ev : Event) : option error :=
  match ev with
  | EvListImages _ (inl err) => Some err
  | EvDescribeImages _ (inl err) => Some err
  | _ => None
  end.

(** An event that is neither output on standard output nor a failed call. *)
Definition quiet (ev : Event) : bool :=
  match ev with
  | EvStdout _ => false
  | EvListImages _ (inl _) => false
  | EvDescribeImages _ (inl _) => false
  | _ => true
  end.

Definition isListImages (ev : Event) : bool :=
  match ev with EvListImages _ _ => true | _ => false end.

Definition isDescribeImages (ev : Event) : bool :=
  match ev with EvDescribeImages _ _ => true | _ => false end.

(** The identifiers of a page that line 74 lets through, and the lines
    logged for them. *)
Definition keep {Regexp} (MatchString : Regexp -> string -> bool)
           (tagRegexp : Regexp) (page : list ImageIdentifier.t)
  : list ImageIdentifier.t :=
  filter (matched MatchString tagRegexp) page.

Definition matchedLines (ids : list ImageIdentifier.t) : list Event :=
  map (fun imageID => EvLog (LogMatchedTag (tagOf imageID))) ids.

(** The request that follows a page carrying a continuation token. *)
Definition nextInput (input : ListImagesInput.t) (page : ListImagesOutput.t)
  : ListImagesInput.t :=
  ListImagesInput.mk (ListImagesInput.RepositoryName input)
                     (ListImagesOutput.NextToken page).

(** [Serves client w input pages w']: from world [w], the successive list
    calls that start with [input] are answered by [pages], in order, all
    but the last with a continuation token and the last without, leaving
    the world at [w']. *)
Inductive Serves {W} (client : ECR W)
  : W -> ListImagesInput.t -> list ListImagesOutput.t -> W -> Prop :=
| Serves_last w input page w' :
    ecr_ListImages client input w = (inr page, w') ->
    ListImagesOutput.NextToken page = None ->
    Serves client w input [page] w'
| Serves_more w input page w1 token pages w' :
    ecr_ListImages client input w = (inr page, w1) ->
    ListImagesOutput.NextToken page = Some token ->
    Serves client w1 (nextInput input page) pages w' ->
    Serves client w input (page :: pages) w'.

(** The events of reading those pages: per page, the call and then one
    line per matched identifier. *)
Fixpoint pageEvents {Regexp} (MatchString : Regexp -> string -> bool)
         (tagRegexp : Regexp) (input : ListImagesInput.t)
         (pages : list ListImagesOutput.t) : list Event :=
  match pages with
  | [] => []
  | page :: pages' =>
      EvListImages input (inr page)
      :: matchedLines (keep MatchString tagRegexp (ListImagesOutput.ImageIds page))
      ++ pageEvents MatchString tagRegexp (nextInput input page) pages'
  end.

(** How a run that stopped on a registry error ends: the failed call, then
    the fatal line, after quiet events only. *)
Definition fatalEnd (evs : list Event) : Prop :=
  exists evs0 call err,
    evs = evs0 ++ [call; EvLog (LogFatal err)]
    /\ failed call = Some err
    /\ forallb quiet evs0 = true.

(** How a run that detected a new image ends: the successful describe
    call, the exiting line and the joined tags of the newest detail. *)
Definition detectEnd (evs : list Event) : Prop :=
  exists evs0 input out,
    evs = evs0 ++
          [EvDescribeImages input (inr out);
           EvLog LogExiting;
           EvStdout (strings_Join
                       (snd (currentMostRecent
                               (DescribeImagesOutput.ImageDetails out))) ",")]
    /\ forallb quiet evs0 = true.

(** Until something is detected, a computation either adds quiet events
    only, or stops on a failed call with status 1. *)
Definition calm {A} (r : Res A) (evs : list Event) : Prop :=
  match r with
  | Exit code => code = 1 /\ fatalEnd evs
  | _ => forallb quiet evs = true
  end.

(** The same, for a computation that may end the loop by a detection:
    [returned] tells which results do. *)
Definition ending {A} (returned : A -> bool) (r : Res A) (evs : list Event)
  : Prop :=
  match r with
  | Ret a => if returned a then detectEnd evs else forallb quiet evs = true
  | Exit code => code = 1 /\ fatalEnd evs
  | Running => forallb quiet evs = true
  end.

Definition isReturn (c : Ctl) : bool :=
  match c with Return => true | Continue _ => false end.

(** The first request of a poll cycle, line 63. *)
Definition firstInput (config : Config) : ListImagesInput.t :=
  ListImagesInput.mk (Some (Repository config)) None.

(** A start-up that succeeds: no help flag, a configuration, a pattern
    that compiles, a session. *)
Definition started {Regexp} (env : Startup Regexp) (config : Config)
           (tagRegexp : Regexp) : Prop :=
  flag_h env = false
  /\ envconfig_Process env = inr config
  /\ regexp_Compile env (TagPattern config) = inr tagRegexp
  /\ session_NewSessionWithOptions env (AWSProfile config) (AWSRegion config)
     = None.

(** The state once further events are recorded. *)
Definition after {W} (s : State W) (evs : list Event) : State W :=
  mkState (world s) (trace s ++ evs).

(** The events that end a cycle: lines 107 and 108, or lines 113 to 115. *)
Definition exiting (current : time.Time * list string) : list Event :=
  [EvLog LogExiting; EvStdout (strings_Join (snd current) ",")].

Definition sleeping (config : Config) (current : time.Time * list string)
  : list Event :=
  [EvLog (LogMostRecent (fst current));
   EvLog (LogSleeping (Interval config));
   EvSleep (Interval config)].

(** ** Scenarios on the scripted registry *)
Module Scenario.
Import Script.

Definition latest1 := tagged "sha256:01" "latest".
Definition latest2 := tagged "sha256:02" "latest".

(** Three pages; the first two carry a token. *)
Definition page1 :=
  ListImagesOutput.mk [latest1; tagged "sha256:0b" "v1"] (Some "t1").
Definition page2 :=
  ListImagesOutput.mk [tagged "sha256:0c" "latest-2"] (Some "t2").
Definition page3 := ListImagesOutput.mk [latest2] None.
Definition threePages : World :=
  mk [inr page1; inr page2; inr page3] [].

(** Poll 1 sees no image, poll 2 sees one pushed at 150. *)
Definition zeroThenNonZero : World :=
  mk [page [] None; page [latest1] None]
     [details []; details [detail 150 ["latest"]]].

(** Poll 1 sees an image pushed at 100, poll 2 a newer one pushed at 150
    that carries two tags. *)
Definition newPush : World :=
  mk [page [latest1] None; page [latest2] None]
     [details [detail 100 ["latest"]];
      details [detail 150 ["latest"; "v2"]]].

(** Poll 1 sees an image pushed at 100; it is deleted, and poll 2 sees
    the one that remains, pushed at 50. *)
Definition deleted : World :=
  mk [page [latest2] None; page [latest1] None]
     [details [detail 100 ["latest"]]; details [detail 50 ["latest"]]].

(** Pattern [.*]: poll 2 sees a newer image that has no tag. *)
Definition untaggedPush : World :=
  mk [page [tagged "sha256:01" "v1"] None;
      page [tagged "sha256:01" "v1"; untagged "sha256:02"] None]
     [details [detail 100 ["v1"]];
      details [detail 100 ["v1"]; ImageDetail.mk (Some 150) []]].

(** The describe call of poll 1 fails. *)
Definition describeFails : World :=
  mk [page [latest1] None] [inl "RepositoryNotFoundException"].

(** The list call of poll 2 fails on its second page. *)
Definition listFails : World :=
  mk [page [latest1] None; page [latest1] (Some "t1"); inl "ThrottlingException"]
     [details [detail 100 ["latest"]]].

(** Every described detail lacks its push time. *)
Definition unsetTimes : list ImageDetail.t :=
  [ImageDetail.mk None [Some "latest"]; ImageDetail.mk None [Some "v1"]].

Definition unsetPush : World :=
  mk [page [latest1] None; page [latest1] None]
     [details [detail 100 ["latest"]]; details unsetTimes].

Definition cfg : Config := Script.config "^latest$".

End Scenario.

(** ** Vocabulary of the properties of whole runs *)


Definition isSleep (ev : Event) : bool :=
  match ev with EvSleep _ => true | _ => false end.

(** A describe call that succeeded: one completed poll. *)
Definition described (ev : Event) : bool :=
  match ev with EvDescribeImages _ (inr _) => true | _ => false end.

(** The pauses of a run, and its completed polls. *)
Definition pauses (evs : list Event) : nat :=
  List.length (filter isSleep evs).

Definition polls (evs : list Event) : nat :=
  List.length (filter described evs).

(** 1 for a computation that ended the loop by a detection, 0 otherwise. *)
Definition detections {A} (returned : A -> bool) (r : Res A) : nat :=
  match r with
  | Ret a => if returned a then 1 else 0
  | _ => 0
  end.

Definition hasToken (page : ListImagesOutput.t) : Prop :=
  ListImagesOutput.NextToken page <> None.


(** What every request and every pause of the loop must carry: the
    configured repository, matched identifiers only, the configured
    interval. *)
Definition asConfigured {Regexp} (MatchString : Regexp -> string -> bool)
           (config : Config) (tagRegexp : Regexp) (ev : Event) : Prop :=
  match ev with
  | EvListImages input _ =>
      ListImagesInput.RepositoryName input = Some (Repository config)
  | EvDescribeImages input _ =>
      DescribeImagesInput.RepositoryName input = Some (Repository config)
      /\ Forall (fun imageID => matched MatchString tagRegexp imageID = true)
                (DescribeImagesInput.ImageIds input)
  | EvSleep d => d = Interval config
  | EvLog (LogSleeping d) => d = Interval config
  | _ => True
  end.

(** The newest push time as a maximum over the details. *)
Definition latest (details : list ImageDetail.t) : time.Time :=
  fold_right Z.max time.zero (map pushedAt details).

(** How the pagination loop of lines 67 to 85 can end after reading the
    pages [listed] from [input] with [pages] as bound: it returns after a
    last page without token, it stops on a failed call, or all the pages it
    was allowed to read carried a token. *)
Definition paginated {W Regexp} (ecrClient : ECR W)
           (MatchString : Regexp -> string -> bool) (tagRegexp : Regexp)
           (pages : nat) (input : ListImagesInput.t)
           (imageIDs : list ImageIdentifier.t) (s : State W)
           (r : Res (list ImageIdentifier.t)) (s' : State W)
           (listed : list ListImagesOutput.t) : Prop :=
  let kept := flat_map (fun page => keep MatchString tagRegexp
                                         (ListImagesOutput.ImageIds page))
                       listed in
  let evs := pageEvents MatchString tagRegexp input listed in
  match r with
  | Ret imageIDs' =>
      Serves ecrClient (world s) input listed (world s')
      /\ (List.length listed <= pages)%nat
      /\ imageIDs' = imageIDs ++ kept
      /\ trace s' = trace s ++ evs
  | Exit code =>
      code = 1
      /\ Forall hasToken listed
      /\ (List.length listed < pages)%nat
      /\ exists input' err,
           ListImagesInput.RepositoryName input'
           = ListImagesInput.RepositoryName input
           /\ trace s' = trace s ++ evs ++ [EvListImages input' (inl err);
                                            EvLog (LogFatal err)]
  | Running =>
      Forall hasToken listed
      /\ List.length listed = pages
      /\ trace s' = trace s ++ evs
  end.

(** How a poll cycle can end once its pages are read and [imageIDs] are
    accumulated: the events that follow the pages, by result. *)
Definition cycleTail (config : Config) (prior : time.Time)
           (imageIDs : list ImageIdentifier.t) (c : Res Ctl)
           (tail : list Event) : Prop :=
  let input := DescribeImagesInput.mk (Some (Repository config)) imageIDs in
  match c with
  | Ret Return =>
      exists out,
        let current :=
          currentMostRecent (DescribeImagesOutput.ImageDetails out) in
        detected prior (fst current) = true
        /\ tail = EvDescribeImages input (inr out) :: exiting current
  | Ret (Continue t) =>
      exists out,
        let current :=
          currentMostRecent (DescribeImagesOutput.ImageDetails out) in
        detected prior (fst current) = false
        /\ t = fst current
        /\ tail = EvDescribeImages input (inr out) :: sleeping config current
  | Exit code =>
      code = 1
      /\ exists err,
           tail = [EvDescribeImages input (inl err); EvLog (LogFatal err)]
           \/ exists input',
                ListImagesInput.RepositoryName input'
                = Some (Repository config)
                /\ tail = [EvListImages input' (inl err);
                           EvLog (LogFatal err)]
  | Running => tail = []
  end.

(** A registry whose every page carries a continuation token. *)
Module Endless.

Definition client : ECR nat := {|
  ecr_ListImages := fun _ n =>
    (inr (ListImagesOutput.mk [Script.tagged "sha256:01" "latest"]
                              (Some "more")), S n);
  ecr_DescribeImages := fun _ n =>
    (inr (DescribeImagesOutput.mk []), n)
|}.

End Endless.

(** A scripted registry whose every description has its newest push at
    [t]; and one where three polls see the same image, pushed at 100. *)
Definition steadyScript (t : time.Time) (w : Script.World) : Prop :=
  Forall (fun r : error + DescribeImagesOutput.t =>
            match r with
            | inl _ => True
            | inr out =>
                fst (currentMostRecent (DescribeImagesOutput.ImageDetails out))
                = t
            end)
         (Script.describes w).

Definition unchangedWorld : Script.World :=
  Script.mk
    [Script.page [Scenario.latest1] None; Script.page [Scenario.latest1] None;
     Script.page [Scenario.latest1] None]
    [Script.details [Script.detail 100 ["latest"]];
     Script.details [Script.detail 100 ["latest"]];
     Script.details [Script.detail 100 ["latest"]; Script.detail 40 ["old"]]].

(** * Properties *)

(** ** The regular-expression fragment *)

Lemma splits_In (s a b : list ascii) :
  In (a, b) (regexp.splits s) <-> a ++ b = s.
Proof.
  revert a b; induction s as [|c s IH]; intros a b; simpl.
  - split.
    + intros [H|[]]. now inversion H.
    + intros H. apply app_eq_nil in H as [-> ->]. now left.
  - rewrite in_map_iff. split.
    + intros [H|[[a' b'] [H Hin]]].
      * now inversion H.
      * simpl in H. inversion H; subst. apply IH in Hin. simpl. now rewrite Hin.
    + destruct a as [|c' a]; simpl; intros H.
      * left. now subst.
      * right. inversion H; subst. exists (a, b). split; [reflexivity|].
        now apply IH.
Qed.

(** [MatchString] is a search: it holds exactly when some substring of the
    text is spanned by the pattern, in its context. *)
Lemma MatchString_search (re : regexp.Regexp) (s : string) :
  regexp.MatchString re s = true <->
  exists pre mid post,
    list_ascii_of_string s = pre ++ mid ++ post
    /\ regexp.spans re pre mid post = true.
Proof.
  unfold regexp.MatchString. rewrite existsb_exists. split.
  - intros [[pre rest] [Hin H]]. simpl in H.
    apply existsb_exists in H as [[mid post] [Hin' H]]. simpl in H.
    apply splits_In in Hin, Hin'. exists pre, mid, post.
    split; [now rewrite Hin'|exact H].
  - intros (pre & mid & post & Heq & H).
    exists (pre, mid ++ post). split; [now apply splits_In|].
    simpl. apply existsb_exists. exists (mid, post).
    split; [now apply splits_In|exact H].
Qed.

Example anchored_latest_matches :
  regexp.MatchString Script.anchoredLatest "latest" = true
  /\ regexp.MatchString Script.anchoredLatest "latest-2" = false
  /\ regexp.MatchString Script.anchoredLatest "" = false
  /\ regexp.MatchString (regexp.literal "latest") "latest-2" = true
  /\ regexp.MatchString (regexp.literal "latest") "my-latest" = true
  /\ regexp.MatchString Script.dotStar "" = true.
Proof. vm_compute. repeat split. Qed.

(** ** The newest-selection scan *)

Lemma newer_keeps (cur : time.Time * list string) (d : ImageDetail.t) :
  pushedAt d <= fst cur -> newer cur d = cur.
Proof.
  intros H. unfold newer, time.After. fold (pushedAt d).
  destruct (Z.ltb_spec (fst cur) (pushedAt d)); [lia|reflexivity].
Qed.

Lemma newer_replaces (cur : time.Time * list string) (d : ImageDetail.t) :
  fst cur < pushedAt d -> newer cur d = (pushedAt d, tagsOf d).
Proof.
  intros H. unfold newer, time.After. fold (pushedAt d).
  destruct (Z.ltb_spec (fst cur) (pushedAt d)); [reflexivity|lia].
Qed.

(** The scan from any candidate: either nothing is later than the
    candidate, or the result is the first of the latest details. *)
Lemma scan_from (details : list ImageDetail.t) :
  forall cur,
    (Forall (fun x => pushedAt x <= fst cur) details
     /\ fold_left newer details cur = cur)
    \/ exists before d after,
         details = before ++ d :: after
         /\ fst cur < pushedAt d
         /\ Forall (fun x => pushedAt x < pushedAt d) before
         /\ Forall (fun x => pushedAt x <= pushedAt d) after
         /\ fold_left newer details cur = (pushedAt d, tagsOf d).
Proof.
  induction details as [|d0 rest IH]; intros cur.
  - left. split; [constructor|reflexivity].
  - simpl. destruct (Z.lt_ge_cases (fst cur) (pushedAt d0)) as [Hlt|Hge].
    + rewrite (newer_replaces _ _ Hlt).
      destruct (IH (pushedAt d0, tagsOf d0))
        as [[Hall Heq]|(b & d & a & -> & Hd & Hb & Ha & Heq)]; simpl in *.
      * right. exists [], d0, rest. repeat split; auto.
      * right. exists (d0 :: b), d, a. repeat split; auto; try lia.
    + rewrite (newer_keeps _ _ Hge).
      destruct (IH cur)
        as [[Hall Heq]|(b & d & a & -> & Hd & Hb & Ha & Heq)].
      * left. split; [constructor; assumption|exact Heq].
      * right. exists (d0 :: b), d, a. repeat split; auto.
        constructor; [lia|assumption].
Qed.

Lemma currentMostRecent_nonneg (details : list ImageDetail.t) :
  0 <= fst (currentMostRecent details).
Proof.
  unfold currentMostRecent.
  destruct (scan_from details (time.zero, []))
    as [[_ ->]|(b & d & a & _ & Hd & _ & _ & ->)]; simpl in *;
    unfold time.zero in *; lia.
Qed.

Lemma currentMostRecent_snoc (details : list ImageDetail.t) (d : ImageDetail.t) :
  currentMostRecent (details ++ [d]) = newer (currentMostRecent details) d.
Proof. unfold currentMostRecent. now rewrite fold_left_app. Qed.

Lemma detected_zero_prior (current : time.Time) :
  detected time.zero current = false.
Proof. reflexivity. Qed.

Lemma detected_iff (prior current : time.Time) :
  detected prior current = true <->
  time.IsZero prior = false /\ time.After current prior = true.
Proof.
  unfold detected. rewrite andb_true_iff, negb_true_iff. tauto.
Qed.

(** **** C4 *)

(** C4: the newest-selection scan starts from the zero time and the empty
    tag list, which is its result on the empty list; a detail whose time is
    not strictly later than the candidate's leaves the candidate as it is,
    and a strictly later one replaces both the time and the tags; so the
    result is either the zero time with no tags, when no detail is later
    than zero, or the time and the full tag set of the first detail that
    carries the latest time. *)
Theorem newest_selection_is_strict :
  currentMostRecent [] = (time.zero, [])
  /\ (forall cur d,
        pushedAt d = fst cur \/ pushedAt d < fst cur -> newer cur d = cur)
  /\ (forall cur d,
        fst cur < pushedAt d -> newer cur d = (pushedAt d, tagsOf d))
  /\ (forall details,
        (Forall (fun x => pushedAt x <= time.zero) details
         /\ currentMostRecent details = (time.zero, []))
        \/ exists before d after,
             details = before ++ d :: after
             /\ time.zero < pushedAt d
             /\ Forall (fun x => pushedAt x < pushedAt d) before
             /\ Forall (fun x => pushedAt x <= pushedAt d) after
             /\ currentMostRecent details = (pushedAt d, tagsOf d)).
Proof.
  split; [reflexivity|]. split; [|split].
  - intros cur d H. apply newer_keeps. lia.
  - exact newer_replaces.
  - intros details. exact (scan_from details (time.zero, [])).
Qed.

(** The scan on two details pushed at the same time keeps the first. *)
Lemma newest_selection_is_strict_witness :
  newer (5, ["a"]) (Script.detail 5 ["b"]) = (5, ["a"])
  /\ newer (5, ["a"]) (Script.detail 7 ["b"; "c"]) = (7, ["b"; "c"])
  /\ currentMostRecent [Script.detail 7 ["a"]; Script.detail 7 ["b"]]
     = (7, ["a"]).
Proof.
  destruct newest_selection_is_strict as (_ & Hkeep & Hrep & _).
  split; [|split].
  - apply Hkeep. left. reflexivity.
  - apply (Hrep (5, ["a"]) (Script.detail 7 ["b"; "c"])). reflexivity.
  - reflexivity.
Defined.

(** ** The tag filter, lines 73 to 78 *)

Section Filter.

Context {W Regexp : Type}.
Variable MatchString : Regexp -> string -> bool.
Variable tagRegexp : Regexp.

(** The range over a page always returns: it appends the matched
    identifiers in page order and logs one line for each. *)
Lemma rangeImageIds_eq (page : list ImageIdentifier.t) :
  forall imageIDs (s : State W),
    rangeImageIds MatchString tagRegexp page imageIDs s
    = (Ret (imageIDs ++ keep MatchString tagRegexp page),
       mkState (world s)
               (trace s ++ matchedLines (keep MatchString tagRegexp page))).
Proof.
  induction page as [|imageID page IH]; intros imageIDs s.
  - unfold keep, matchedLines. simpl. rewrite !app_nil_r.
    destruct s. reflexivity.
  - cbn [rangeImageIds]. unfold keep. cbn [filter].
    change (matched MatchString tagRegexp imageID)
      with (MatchString tagRegexp
              (aws_StringValue (ImageIdentifier.ImageTag imageID))).
    destruct (MatchString tagRegexp
                (aws_StringValue (ImageIdentifier.ImageTag imageID))) eqn:Hm.
    + unfold bind, logger_Print, emit. rewrite IH. cbn [world trace].
      unfold keep, matchedLines. cbn [map]. unfold tagOf.
      cbn [map]. rewrite <- !app_assoc. reflexivity.
    + apply IH.
Qed.

Lemma keep_In (page : list ImageIdentifier.t) (imageID : ImageIdentifier.t) :
  In imageID (keep MatchString tagRegexp page) <->
  In imageID page /\ MatchString tagRegexp (tagOf imageID) = true.
Proof. unfold keep, matched, tagOf. apply filter_In. Qed.

End Filter.

(** **** C3 *)

(** C3, as the code has it: after the range over a page, an identifier is
    among the accumulated ones exactly when it was there before or it is on
    the page and the compiled pattern matches its tag, an absent tag being
    read as the empty string; so an identifier of the page with an empty or
    absent tag is included exactly when the pattern matches the empty
    string.  For the modelled patterns the match is a search: some
    substring of the tag is spanned by the pattern. *)
Theorem tag_filter_includes_what_pattern_matches :
  (forall (W Regexp : Type) (MatchString : Regexp -> string -> bool)
          (tagRegexp : Regexp) (page imageIDs : list ImageIdentifier.t)
          (s : State W),
      exists imageIDs' s',
        rangeImageIds MatchString tagRegexp page imageIDs s
        = (Ret imageIDs', s')
        /\ (forall imageID,
              In imageID imageIDs' <->
              In imageID imageIDs
              \/ (In imageID page
                  /\ MatchString tagRegexp
                       (aws_StringValue (ImageIdentifier.ImageTag imageID))
                     = true))
        /\ (forall imageID,
              aws_StringValue (ImageIdentifier.ImageTag imageID) = "" ->
              (In imageID imageIDs' <->
               In imageID imageIDs
               \/ (In imageID page /\ MatchString tagRegexp "" = true))))
  /\ (forall (tagRegexp : regexp.Regexp) (imageID : ImageIdentifier.t),
        matched regexp.MatchString tagRegexp imageID = true <->
        exists pre mid post,
          list_ascii_of_string
            (aws_StringValue (ImageIdentifier.ImageTag imageID))
          = pre ++ mid ++ post
          /\ regexp.spans tagRegexp pre mid post = true).
Proof.
  split.
  - intros W Regexp MatchString tagRegexp page imageIDs s.
    eexists _, _. split; [apply rangeImageIds_eq|].
    assert (Hin : forall imageID,
               In imageID (imageIDs ++ keep MatchString tagRegexp page) <->
               In imageID imageIDs
               \/ (In imageID page
                   /\ MatchString tagRegexp
                        (aws_StringValue (ImageIdentifier.ImageTag imageID))
                      = true)).
    { intros imageID. rewrite in_app_iff, keep_In. unfold tagOf. tauto. }
    split; [exact Hin|].
    intros imageID Hempty. rewrite Hin, Hempty. tauto.
  - intros tagRegexp imageID. unfold matched. apply MatchString_search.
Qed.

(** With the default pattern an untagged identifier is left out, with [.*]
    it is let through. *)
Lemma tag_filter_includes_what_pattern_matches_witness :
  let id := Script.untagged "sha256:0a" in
  (forall ids s',
      rangeImageIds regexp.MatchString Script.dotStar [id] []
                    (Script.start (Script.mk [] []))
      = (Ret ids, s') -> In id ids)
  /\ (forall ids s',
      rangeImageIds regexp.MatchString Script.anchoredLatest [id] []
                    (Script.start (Script.mk [] []))
      = (Ret ids, s') -> ~ In id ids).
Proof.
  intros id.
  destruct tag_filter_includes_what_pattern_matches as [H _].
  split; intros ids s' Heq.
  - destruct (H _ _ regexp.MatchString Script.dotStar [id] []
                (Script.start (Script.mk [] []))) as (ids' & s'' & Heq' & _ & He).
    rewrite Heq in Heq'. inversion Heq'; subst.
    apply (He id); [reflexivity|]. right. split; [now left|reflexivity].
  - destruct (H _ _ regexp.MatchString Script.anchoredLatest [id] []
                (Script.start (Script.mk [] []))) as (ids' & s'' & Heq' & _ & He).
    rewrite Heq in Heq'. inversion Heq'; subst.
    intros Hin. apply (He id) in Hin; [|reflexivity].
    destruct Hin as [[]|[_ Hm]]. discriminate Hm.
Defined.

(** The claim as it is written fails: with the pattern [.*], the range
    over a page accumulates an identifier that has no tag, and logs the
    empty tag as matched. *)
Lemma tag_filter_empty_tag_counterexample :
  let id := Script.untagged "sha256:0a" in
  aws_StringValue (ImageIdentifier.ImageTag id) = ""
  /\ rangeImageIds regexp.MatchString Script.dotStar [id] []
                   (Script.start (Script.mk [] []))
     = (Ret [id], mkState (Script.mk [] []) [EvLog (LogMatchedTag "")])
  /\ ~ (In id [id] <->
        In id [id]
        /\ aws_StringValue (ImageIdentifier.ImageTag id) <> ""
        /\ regexp.MatchString Script.dotStar
             (aws_StringValue (ImageIdentifier.ImageTag id)) = true).
Proof.
  intros id. split; [reflexivity|]. split; [reflexivity|].
  intros [H _]. destruct H as (_ & Hne & _); [now left|].
  apply Hne. reflexivity.
Qed.

(** ** Events: standard output, failed calls *)

Lemma stdout_app (evs evs' : list Event) :
  stdout (evs ++ evs') = (stdout evs ++ stdout evs')%string.
Proof.
  induction evs as [|ev evs IH]; [reflexivity|].
  destruct ev; simpl; rewrite IH; try reflexivity.
  clear. induction s as [|c s IHs]; simpl; [reflexivity|now rewrite IHs].
Qed.

Lemma string_app_empty_r (s : string) : (s ++ "")%string = s.
Proof. induction s as [|c s IH]; simpl; [reflexivity|now rewrite IH]. Qed.

Lemma quiet_stdout (evs : list Event) :
  forallb quiet evs = true -> stdout evs = "".
Proof.
  induction evs as [|ev evs IH]; [reflexivity|]. simpl.
  intros H. apply andb_true_iff in H as [Hev Hevs].
  destruct ev; simpl in *; try discriminate; auto.
Qed.

Lemma quiet_not_failed (ev : Event) : quiet ev = true -> failed ev = None.
Proof. destruct ev as [| | |? [|]|? [|]]; simpl; congruence. Qed.

Lemma quiet_all_not_failed (evs : list Event) (ev : Event) :
  forallb quiet evs = true -> In ev evs -> failed ev = None.
Proof.
  intros H Hin. apply quiet_not_failed.
  rewrite forallb_forall in H. now apply H.
Qed.

Lemma matchedLines_quiet (ids : list ImageIdentifier.t) :
  forallb quiet (matchedLines ids) = true.
Proof. induction ids; simpl; auto. Qed.

Lemma fatalEnd_prefix (pre evs : list Event) :
  forallb quiet pre = true -> fatalEnd evs -> fatalEnd (pre ++ evs).
Proof.
  intros Hpre (evs0 & call & err & -> & Hf & Hq).
  exists (pre ++ evs0), call, err. rewrite app_assoc. repeat split; auto.
  rewrite forallb_app, Hpre, Hq. reflexivity.
Qed.

Lemma detectEnd_prefix (pre evs : list Event) :
  forallb quiet pre = true -> detectEnd evs -> detectEnd (pre ++ evs).
Proof.
  intros Hpre (evs0 & input & out & -> & Hq).
  exists (pre ++ evs0), input, out. rewrite app_assoc. split; auto.
  rewrite forallb_app, Hpre, Hq. reflexivity.
Qed.

(** A failed call among events whose other members did not fail sits at
    one place only. *)
Lemma failed_call_position (evs0 tl pre post : list Event) (c call : Event)
      (err : error) :
  evs0 ++ c :: tl = pre ++ call :: post ->
  (forall ev, In ev evs0 -> failed ev = None) ->
  (forall ev, In ev tl -> failed ev = None) ->
  failed call = Some err ->
  pre = evs0 /\ call = c /\ post = tl.
Proof.
  revert pre. induction evs0 as [|a evs0 IH]; intros pre Heq H0 Htl Hf.
  - destruct pre as [|x pre]; simpl in Heq; inversion Heq; subst.
    + auto.
    + rewrite Htl in Hf; [discriminate|]. apply in_or_app. right. now left.
  - destruct pre as [|x pre]; simpl in Heq; inversion Heq; subst.
    + rewrite H0 in Hf; [discriminate|now left].
    + destruct (IH pre) as (-> & -> & ->); auto.
      intros ev Hin. apply H0. now right.
Qed.

(** ** The loop, unfolded one level *)

Section Loop.

Context {W Regexp : Type}.
Variable ecrClient : ECR W.
Variable MatchString : Regexp -> string -> bool.
Variable config : Config.
Variable tagRegexp : Regexp.

Lemma listLoop_S (pages : nat) (input : ListImagesInput.t)
      (imageIDs : list ImageIdentifier.t) (s : State W) :
  listLoop ecrClient MatchString tagRegexp (S pages) input imageIDs s
  = match ecr_ListImages ecrClient input (world s) with
    | (inl err, w) =>
        (Exit 1,
         mkState w (trace s ++ [EvListImages input (inl err);
                                EvLog (LogFatal err)]))
    | (inr page, w) =>
        let kept := keep MatchString tagRegexp
                         (ListImagesOutput.ImageIds page) in
        let s' := mkState w (trace s ++ EvListImages input (inr page)
                                     :: matchedLines kept) in
        match ListImagesOutput.NextToken page with
        | Some _ =>
            listLoop ecrClient MatchString tagRegexp pages
                     (nextInput input page) (imageIDs ++ kept) s'
        | None => (Ret (imageIDs ++ kept), s')
        end
    end.
Proof.
  cbn [listLoop]. unfold bind at 1. unfold ListImages.
  destruct (ecr_ListImages ecrClient input (world s)) as [[err|page] w].
  - unfold logger_Fatal, logger_Print, bind, emit, os_Exit. cbn [world trace].
    now rewrite <- app_assoc.
  - unfold bind at 1. rewrite rangeImageIds_eq. cbn [world trace].
    rewrite <- app_assoc. cbn [app]. unfold nextInput.
    destruct (ListImagesOutput.NextToken page); reflexivity.
Qed.

Lemma observe_eq (pages : nat) (s : State W) :
  observe ecrClient MatchString config tagRegexp pages s
  = match listLoop ecrClient MatchString tagRegexp pages (firstInput config) [] s with
    | (Ret imageIDs, s1) =>
        let input := DescribeImagesInput.mk (Some (Repository config))
                                            imageIDs in
        match ecr_DescribeImages ecrClient input (world s1) with
        | (inl err, w) =>
            (Exit 1,
             mkState w (trace s1 ++ [EvDescribeImages input (inl err);
                                     EvLog (LogFatal err)]))
        | (inr out, w) =>
            (Ret (currentMostRecent (DescribeImagesOutput.ImageDetails out)),
             mkState w (trace s1 ++ [EvDescribeImages input (inr out)]))
        end
    | (Exit code, s1) => (Exit code, s1)
    | (Running, s1) => (Running, s1)
    end.
Proof.
  unfold observe, bind at 1. fold (firstInput config).
  destruct (listLoop ecrClient MatchString tagRegexp pages (firstInput config) [] s)
    as [[imageIDs|code|] s1]; try reflexivity.
  unfold describeNewest, bind, DescribeImages. cbn zeta.
  destruct (ecr_DescribeImages ecrClient _ (world s1)) as [[err|out] w].
  - unfold logger_Fatal, logger_Print, bind, emit, os_Exit. cbn [world trace].
    now rewrite <- app_assoc.
  - reflexivity.
Qed.

Lemma cycle_eq (pages : nat) (prior : time.Time) (s : State W) :
  cycle ecrClient MatchString config tagRegexp pages prior s
  = match observe ecrClient MatchString config tagRegexp pages s with
    | (Ret current, s1) =>
        if detected prior (fst current)
        then (Ret Return,
              mkState (world s1)
                      (trace s1 ++ [EvLog LogExiting;
                                    EvStdout (strings_Join (snd current) ",")]))
        else (Ret (Continue (fst current)),
              mkState (world s1)
                      (trace s1 ++ [EvLog (LogMostRecent (fst current));
                                    EvLog (LogSleeping (Interval config));
                                    EvSleep (Interval config)]))
    | (Exit code, s1) => (Exit code, s1)
    | (Running, s1) => (Running, s1)
    end.
Proof.
  unfold cycle, bind at 1.
  destruct (observe ecrClient MatchString config tagRegexp pages s)
    as [[current|code|] s1]; try reflexivity.
  destruct (detected prior (fst current)).
  - unfold logger_Print, fmt_Print, bind, emit, ret. cbn [world trace].
    now rewrite <- app_assoc.
  - unfold logger_Print, time_Sleep, bind, emit, ret. cbn [world trace].
    now rewrite <- !app_assoc.
Qed.

Lemma watch_S (pages cycles : nat) (prior : time.Time) (s : State W) :
  watch ecrClient MatchString config tagRegexp pages (S cycles) prior s
  = match cycle ecrClient MatchString config tagRegexp pages prior s with
    | (Ret Return, s1) => (Ret tt, s1)
    | (Ret (Continue t), s1) =>
        watch ecrClient MatchString config tagRegexp pages cycles t s1
    | (Exit code, s1) => (Exit code, s1)
    | (Running, s1) => (Running, s1)
    end.
Proof.
  cbn [watch]. unfold bind at 1.
  destruct (cycle ecrClient MatchString config tagRegexp pages prior s)
    as [[[|t]|code|] s1]; reflexivity.
Qed.

End Loop.

(** ** How every run extends the trace *)

Section Runs.

Context {W Regexp : Type}.
Variable ecrClient : ECR W.
Variable MatchString : Regexp -> string -> bool.
Variable config : Config.
Variable tagRegexp : Regexp.

Lemma calm_prefix {A} (r : Res A) (pre evs : list Event) :
  forallb quiet pre = true -> calm r evs -> calm r (pre ++ evs).
Proof.
  intros Hpre. destruct r; simpl; try (intros H; now rewrite forallb_app, Hpre, H).
  intros [-> H]. split; [reflexivity|now apply fatalEnd_prefix].
Qed.

Lemma listLoop_calm (pages : nat) :
  forall input imageIDs (s : State W) r s',
    listLoop ecrClient MatchString tagRegexp pages input imageIDs s = (r, s') ->
    exists evs, trace s' = trace s ++ evs /\ calm r evs.
Proof.
  induction pages as [|pages IH]; intros input imageIDs s r s' Hrun.
  - inversion Hrun; subst. exists []. now rewrite app_nil_r.
  - rewrite listLoop_S in Hrun.
    destruct (ecr_ListImages ecrClient input (world s)) as [[err|page] w].
    + inversion Hrun; subst. eexists. split; [reflexivity|].
      split; [reflexivity|]. now exists [], (EvListImages input (inl err)), err.
    + cbn zeta in Hrun.
      set (kept := keep MatchString tagRegexp
                        (ListImagesOutput.ImageIds page)) in *.
      assert (Hq : forallb quiet (EvListImages input (inr page)
                                  :: matchedLines kept) = true)
        by (simpl; apply matchedLines_quiet).
      destruct (ListImagesOutput.NextToken page).
      * apply IH in Hrun as (evs & Htr & Hc). cbn [trace] in Htr.
        exists ((EvListImages input (inr page) :: matchedLines kept) ++ evs).
        split; [now rewrite Htr, <- app_assoc|now apply calm_prefix].
      * inversion Hrun; subst. eexists. split; [reflexivity|exact Hq].
Qed.

Lemma observe_shape (pages : nat) (s : State W) r s' :
  observe ecrClient MatchString config tagRegexp pages s = (r, s') ->
  exists evs,
    trace s' = trace s ++ evs
    /\ match r with
       | Ret current =>
           exists evs0 input out,
             evs = evs0 ++ [EvDescribeImages input (inr out)]
             /\ forallb quiet evs0 = true
             /\ current = currentMostRecent
                            (DescribeImagesOutput.ImageDetails out)
       | Exit code => code = 1 /\ fatalEnd evs
       | Running => forallb quiet evs = true
       end.
Proof.
  rewrite observe_eq. intros Hrun.
  destruct (listLoop ecrClient MatchString tagRegexp pages _ [] s)
    as [[imageIDs|code|] s1] eqn:Hlist;
    apply listLoop_calm in Hlist as (evs & Htr & Hc); simpl in Hc.
  - cbn zeta in Hrun.
    destruct (ecr_DescribeImages ecrClient _ (world s1)) as [[err|out] w];
      inversion Hrun; subst; cbn [trace]; rewrite Htr, <- app_assoc;
      eexists; (split; [reflexivity|]).
    + split; [reflexivity|]. now eexists evs, _, err.
    + now eexists evs, _, out.
  - inversion Hrun; subst. now exists evs.
  - inversion Hrun; subst. now exists evs.
Qed.

Lemma cycle_shape (pages : nat) (prior : time.Time) (s : State W) r s' :
  cycle ecrClient MatchString config tagRegexp pages prior s = (r, s') ->
  exists evs, trace s' = trace s ++ evs /\ ending isReturn r evs.
Proof.
  rewrite cycle_eq. intros Hrun.
  destruct (observe ecrClient MatchString config tagRegexp pages s)
    as [[current|code|] s1] eqn:Hobs;
    apply observe_shape in Hobs as (evs & Htr & H).
  - destruct H as (evs0 & input & out & -> & Hq & ->).
    destruct (detected prior _); inversion Hrun; subst; cbn [trace];
      rewrite Htr, <- !app_assoc; eexists; (split; [reflexivity|]); simpl.
    + now exists evs0, input, out.
    + rewrite forallb_app, Hq. reflexivity.
  - inversion Hrun; subst. now exists evs.
  - inversion Hrun; subst. now exists evs.
Qed.

Lemma ending_prefix {A} (returned : A -> bool) (r : Res A)
      (pre evs : list Event) :
  forallb quiet pre = true -> ending returned r evs ->
  ending returned r (pre ++ evs).
Proof.
  intros Hpre. destruct r as [a|code|]; simpl.
  - destruct (returned a); [now apply detectEnd_prefix|].
    intros H. now rewrite forallb_app, Hpre, H.
  - intros [-> H]. split; [reflexivity|now apply fatalEnd_prefix].
  - intros H. now rewrite forallb_app, Hpre, H.
Qed.

Lemma watch_shape (pages cycles : nat) :
  forall prior (s : State W) r s',
    watch ecrClient MatchString config tagRegexp pages cycles prior s
    = (r, s') ->
    exists evs,
      trace s' = trace s ++ evs /\ ending (fun _ : unit => true) r evs.
Proof.
  induction cycles as [|cycles IH]; intros prior s r s' Hrun.
  - inversion Hrun; subst. exists []. now rewrite app_nil_r.
  - rewrite watch_S in Hrun.
    destruct (cycle ecrClient MatchString config tagRegexp pages prior s)
      as [[[|t]|code|] s1] eqn:Hc;
      apply cycle_shape in Hc as (evs & Htr & He); simpl in He.
    + inversion Hrun; subst. now exists evs.
    + apply IH in Hrun as (evs' & Htr' & He').
      exists (evs ++ evs'). split; [now rewrite Htr', Htr, app_assoc|].
      now apply ending_prefix.
    + inversion Hrun; subst. now exists evs.
    + inversion Hrun; subst. now exists evs.
Qed.

End Runs.

(** ** Pagination *)

Section Pagination.

Context {W Regexp : Type}.
Variable ecrClient : ECR W.
Variable MatchString : Regexp -> string -> bool.
Variable config : Config.
Variable tagRegexp : Regexp.

Let keepPage (page : ListImagesOutput.t) : list ImageIdentifier.t :=
  keep MatchString tagRegexp (ListImagesOutput.ImageIds page).

Lemma listLoop_serves w input listed w' :
  Serves ecrClient w input listed w' ->
  forall pages imageIDs tr,
    (List.length listed <= pages)%nat ->
    listLoop ecrClient MatchString tagRegexp pages input imageIDs
             (mkState w tr)
    = (Ret (imageIDs ++ flat_map keepPage listed),
       mkState w' (tr ++ pageEvents MatchString tagRegexp input listed)).
Proof.
  induction 1 as [w input page w' Hcall Htok
                 |w input page w1 token rest w' Hcall Htok Hrest IH];
    intros pages imageIDs tr Hlen;
    (destruct pages as [|pages]; [simpl in Hlen; lia|]);
    rewrite listLoop_S; cbn [world trace]; rewrite Hcall; cbn zeta;
    rewrite Htok.
  - cbn [flat_map pageEvents]. now rewrite !app_nil_r.
  - rewrite IH by (simpl in Hlen; lia).
    cbn [flat_map pageEvents]. fold (keepPage page).
    rewrite <- !app_assoc. reflexivity.
Qed.

Lemma pageEvents_calls input listed :
  List.length (filter isListImages
                 (pageEvents MatchString tagRegexp input listed))
  = List.length listed
  /\ filter isDescribeImages
            (pageEvents MatchString tagRegexp input listed) = [].
Proof.
  assert (Hlines : forall ids,
             filter isListImages (matchedLines ids) = []
             /\ filter isDescribeImages (matchedLines ids) = []).
  { induction ids as [|id ids [IH1 IH2]]; simpl; auto. }
  revert input. induction listed as [|page rest IH]; intros input.
  - split; reflexivity.
  - cbn [pageEvents filter isListImages isDescribeImages].
    rewrite !filter_app.
    destruct (Hlines (keep MatchString tagRegexp
                           (ListImagesOutput.ImageIds page))) as [-> ->].
    destruct (IH (nextInput input page)) as [IH1 IH2].
    cbn [app List.length]. rewrite IH1, IH2. split; reflexivity.
Qed.

Lemma observe_after_pages (s : State W) listed w' pages :
  Serves ecrClient (world s) (firstInput config) listed w' ->
  (List.length listed <= pages)%nat ->
  observe ecrClient MatchString config tagRegexp pages s
  = describeNewest ecrClient config (flat_map keepPage listed)
      (mkState w' (trace s ++ pageEvents MatchString tagRegexp
                                         (firstInput config) listed)).
Proof.
  intros Hs Hlen. unfold observe, bind at 1. fold (firstInput config).
  destruct s as [w tr]. cbn [world trace] in *.
  rewrite (listLoop_serves _ _ _ _ Hs pages [] tr Hlen). reflexivity.
Qed.

End Pagination.

(** **** C5 *)

(** C5: when the registry answers the successive list calls of a poll
    cycle with N pages, the first N-1 carrying a continuation token and the
    last carrying none, the pagination loop, given fuel for N pages,
    returns; it has called the list operation once per page, each call
    after the first carrying the token of the page before; it has
    accumulated, in order, the matching identifiers of every page, each
    occurrence once; and the describe call is made next, from the state
    the N-th page left, with exactly those identifiers. *)
Theorem pagination_accumulates_every_page_once
        (W Regexp : Type) (ecrClient : ECR W)
        (MatchString : Regexp -> string -> bool) (config : Config)
        (tagRegexp : Regexp) (s : State W)
        (listed : list ListImagesOutput.t) (w' : W) (pages : nat) :
  Serves ecrClient (world s) (firstInput config) listed w' ->
  (List.length listed <= pages)%nat ->
  let imageIDs :=
    flat_map (fun page => keep MatchString tagRegexp
                               (ListImagesOutput.ImageIds page)) listed in
  let evs := pageEvents MatchString tagRegexp (firstInput config) listed in
  listLoop ecrClient MatchString tagRegexp pages (firstInput config) [] s
  = (Ret imageIDs, mkState w' (trace s ++ evs))
  /\ List.length (filter isListImages evs) = List.length listed
  /\ filter isDescribeImages evs = []
  /\ observe ecrClient MatchString config tagRegexp pages s
     = describeNewest ecrClient config imageIDs
                       (mkState w' (trace s ++ evs)).
Proof.
  intros Hs Hlen imageIDs evs. split; [|split; [|split]].
  - destruct s as [w tr]. cbn [world trace] in *.
    apply (listLoop_serves _ _ _ _ _ _ _ Hs pages [] tr Hlen).
  - apply pageEvents_calls.
  - apply pageEvents_calls.
  - now apply observe_after_pages.
Qed.

(** Three pages, two of them with a token: three calls, and the two
    identifiers tagged [latest] accumulated. *)
Lemma pagination_accumulates_every_page_once_witness :
  listLoop Script.client regexp.MatchString Script.anchoredLatest 3
           (firstInput Scenario.cfg) [] (Script.start Scenario.threePages)
  = (Ret [Scenario.latest1; Scenario.latest2],
     mkState (Script.mk [] [])
       [EvListImages (ListImagesInput.mk (Some "app") None)
                     (inr Scenario.page1);
        EvLog (LogMatchedTag "latest");
        EvListImages (ListImagesInput.mk (Some "app") (Some "t1"))
                     (inr Scenario.page2);
        EvListImages (ListImagesInput.mk (Some "app") (Some "t2"))
                     (inr Scenario.page3);
        EvLog (LogMatchedTag "latest")]).
Proof.
  refine (proj1 (pagination_accumulates_every_page_once
                   _ _ Script.client regexp.MatchString Scenario.cfg
                   Script.anchoredLatest (Script.start Scenario.threePages)
                   [Scenario.page1; Scenario.page2; Scenario.page3]
                   (Script.mk [] []) 3 _ _)).
  - eapply Serves_more; [reflexivity|reflexivity|].
    eapply Serves_more; [reflexivity|reflexivity|].
    apply Serves_last; reflexivity.
  - simpl. lia.
Defined.

(** ** [main]: start-up, then the loop *)

Section MainRuns.

Context {W Regexp : Type}.
Variable ecrClient : ECR W.
Variable MatchString : Regexp -> string -> bool.
Variable env : Startup Regexp.

Lemma main_help (pages cycles : nat) (s : State W) :
  flag_h env = true ->
  main ecrClient MatchString env pages cycles s
  = (Ret tt, after s [EvStdout (envconfig_Usage env)]).
Proof. intros H. unfold main. rewrite H. reflexivity. Qed.

Lemma main_started (config : Config) (tagRegexp : Regexp)
      (pages cycles : nat) (s : State W) :
  started env config tagRegexp ->
  main ecrClient MatchString env pages cycles s
  = watch ecrClient MatchString config tagRegexp pages cycles time.zero
          (after s [EvLog LogRunning]).
Proof.
  intros (Hh & Hc & Hr & Hs). unfold main. rewrite Hh, Hc, Hr, Hs.
  reflexivity.
Qed.

Lemma main_shape (pages cycles : nat) (s : State W) r s' :
  flag_h env = false ->
  main ecrClient MatchString env pages cycles s = (r, s') ->
  exists evs,
    trace s' = trace s ++ evs
    /\ match r with
       | Ret _ => detectEnd evs
       | Exit code =>
           code = 1
           /\ (fatalEnd evs \/ exists err, evs = [EvLog (LogFatal err)])
       | Running => forallb quiet evs = true
       end.
Proof.
  intros Hh. unfold main. rewrite Hh.
  assert (Hfatal : forall err,
             @logger_Fatal W unit err s = (r, s') ->
             exists evs,
               trace s' = trace s ++ evs
               /\ match r with
                  | Ret _ => detectEnd evs
                  | Exit code =>
                      code = 1
                      /\ (fatalEnd evs
                          \/ exists err, evs = [EvLog (LogFatal err)])
                  | Running => forallb quiet evs = true
                  end).
  { intros err Hrun. inversion Hrun; subst. eexists. split; [reflexivity|].
    split; [reflexivity|]. right. now exists err. }
  destruct (envconfig_Process env) as [err|config]; [apply Hfatal|].
  destruct (regexp_Compile env (TagPattern config)) as [err|tagRegexp];
    [apply Hfatal|].
  destruct (session_NewSessionWithOptions env _ _) as [err|];
    [apply Hfatal|].
  unfold bind at 1, logger_Print, emit. intros Hrun.
  apply watch_shape in Hrun as (evs & Htr & He). cbn [trace] in Htr.
  exists (EvLog LogRunning :: evs).
  split; [now rewrite Htr, <- app_assoc|].
  apply (ending_prefix _ _ [EvLog LogRunning]) in He; [|reflexivity].
  destruct r as [a|code|]; simpl in *; auto.
  destruct He as [-> He]. auto.
Qed.

End MainRuns.

Lemma detectEnd_not_failed (evs : list Event) (ev : Event) :
  detectEnd evs -> In ev evs -> failed ev = None.
Proof.
  intros (evs0 & input & out & -> & Hq) Hin.
  apply in_app_or in Hin as [Hin|Hin].
  - now apply (quiet_all_not_failed evs0).
  - simpl in Hin. destruct Hin as [<-|[<-|[<-|[]]]]; reflexivity.
Qed.

Lemma detectEnd_stdout (evs0 : list Event) (input : DescribeImagesInput.t)
      (out : DescribeImagesOutput.t) (printed : string) :
  forallb quiet evs0 = true ->
  stdout (evs0 ++ [EvDescribeImages input (inr out); EvLog LogExiting;
                   EvStdout printed]) = printed.
Proof.
  intros Hq. rewrite stdout_app, (quiet_stdout _ Hq). simpl.
  apply string_app_empty_r.
Qed.

(** **** C7 *)

(** C7: a list call that fails ends the pagination loop at once, and a
    describe call that fails ends the cycle at once: the error is logged
    and the process exits with status 1, no further call being made.  In
    every run of [main], a failed registry call is therefore followed by
    the fatal line for its error and by nothing else, the process has
    exited with status 1, no earlier call had failed, and nothing has been
    written to standard output. *)
Theorem registry_error_is_fatal :
  (forall (W Regexp : Type) (ecrClient : ECR W)
          (MatchString : Regexp -> string -> bool) (tagRegexp : Regexp)
          (pages : nat) (input : ListImagesInput.t)
          (imageIDs : list ImageIdentifier.t) (s : State W)
          (err : error) (w : W),
      ecr_ListImages ecrClient input (world s) = (inl err, w) ->
      listLoop ecrClient MatchString tagRegexp (S pages) input imageIDs s
      = (Exit 1, mkState w (trace s ++ [EvListImages input (inl err);
                                        EvLog (LogFatal err)])))
  /\ (forall (W : Type) (ecrClient : ECR W) (config : Config)
             (imageIDs : list ImageIdentifier.t) (s : State W)
             (err : error) (w : W),
         let input := DescribeImagesInput.mk (Some (Repository config))
                                             imageIDs in
         ecr_DescribeImages ecrClient input (world s) = (inl err, w) ->
         describeNewest ecrClient config imageIDs s
         = (Exit 1, mkState w (trace s ++ [EvDescribeImages input (inl err);
                                           EvLog (LogFatal err)])))
  /\ (forall (W Regexp : Type) (ecrClient : ECR W)
             (MatchString : Regexp -> string -> bool) (env : Startup Regexp)
             (pages cycles : nat) (s s' : State W) (r : Res unit)
             (pre post : list Event) (call : Event) (err : error),
         main ecrClient MatchString env pages cycles s = (r, s') ->
         trace s' = trace s ++ pre ++ call :: post ->
         failed call = Some err ->
         post = [EvLog (LogFatal err)]
         /\ r = Exit 1
         /\ exitStatus r = Some 1
         /\ (forall ev, In ev pre -> failed ev = None)
         /\ stdout (pre ++ call :: post) = "").
Proof.
  split; [|split].
  - intros W Regexp ecrClient MatchString tagRegexp pages input imageIDs s
           err w Hcall.
    rewrite listLoop_S, Hcall. reflexivity.
  - intros W ecrClient config imageIDs s err w input Hcall.
    unfold describeNewest, bind at 1, DescribeImages. fold input.
    rewrite Hcall.
    unfold logger_Fatal, logger_Print, bind, emit, os_Exit. cbn [world trace].
    now rewrite <- app_assoc.
  - intros W Regexp ecrClient MatchString env pages cycles s s' r pre post
           call err Hrun Htr Hf.
    assert (Hcall : In call (pre ++ call :: post))
      by (apply in_or_app; right; now left).
    destruct (flag_h env) eqn:Hh.
    + rewrite main_help in Hrun by assumption. inversion Hrun; subst.
      cbn [after trace] in Htr. apply app_inv_head in Htr.
      rewrite <- Htr in Hcall. destruct Hcall as [<-|[]]. discriminate Hf.
    + apply main_shape in Hrun as (evs & Htr' & Hshape); [|assumption].
      rewrite Htr' in Htr. apply app_inv_head in Htr. subst evs.
      destruct r as [a|code|].
      * rewrite (detectEnd_not_failed _ _ Hshape Hcall) in Hf. discriminate.
      * destruct Hshape as [-> [(evs0 & c & err0 & Heq & Hc & Hq)|[err0 Heq]]].
        -- symmetry in Heq.
           destruct (failed_call_position evs0 [EvLog (LogFatal err0)]
                       pre post c call err Heq) as (-> & -> & ->); auto.
           { intros ev. apply quiet_all_not_failed. exact Hq. }
           { intros ev [<-|[]]. reflexivity. }
           assert (err0 = err) by congruence. subst err0.
           repeat split; auto.
           ++ intros ev. apply quiet_all_not_failed. exact Hq.
           ++ rewrite stdout_app, (quiet_stdout _ Hq).
              destruct c as [| | |? [|]|? [|]]; simpl in Hc;
                try discriminate; reflexivity.
        -- rewrite Heq in Hcall. destruct Hcall as [<-|[]]. discriminate Hf.
      * rewrite (quiet_all_not_failed _ _ Hshape Hcall) in Hf. discriminate.
Qed.

(** The describe call of poll 1 fails: status 1, nothing on standard
    output. *)
Lemma registry_error_is_fatal_witness :
  let run := main Script.client regexp.MatchString (Script.env "^latest$")
                  1 5 (Script.start Scenario.describeFails) in
  fst run = Exit 1
  /\ exitStatus (fst run) = Some 1
  /\ stdout (trace (snd run)) = ""
  /\ trace (snd run)
     = [EvLog LogRunning;
        EvListImages (firstInput Scenario.cfg)
                     (Script.page [Scenario.latest1] None);
        EvLog (LogMatchedTag "latest");
        EvDescribeImages
          (DescribeImagesInput.mk (Some "app") [Scenario.latest1])
          (inl "RepositoryNotFoundException");
        EvLog (LogFatal "RepositoryNotFoundException")].
Proof.
  intros run.
  destruct registry_error_is_fatal as (_ & _ & H).
  destruct (H _ _ Script.client regexp.MatchString (Script.env "^latest$")
              1%nat 5%nat (Script.start Scenario.describeFails)
              (snd run) (fst run)
              [EvLog LogRunning;
               EvListImages (firstInput Scenario.cfg)
                            (Script.page [Scenario.latest1] None);
               EvLog (LogMatchedTag "latest")]
              [EvLog (LogFatal "RepositoryNotFoundException")]
              (EvDescribeImages
                 (DescribeImagesInput.mk (Some "app") [Scenario.latest1])
                 (inl "RepositoryNotFoundException"))
              "RepositoryNotFoundException")
    as (_ & Hr & Hst & _ & Hout).
  - vm_compute. reflexivity.
  - vm_compute. reflexivity.
  - reflexivity.
  - repeat split; auto.
Defined.

(** The list call fails on the second page of poll 2: the run ends there. *)
Example list_failure_on_second_poll :
  let run := main Script.client regexp.MatchString (Script.env "^latest$")
                  2 5 (Script.start Scenario.listFails) in
  fst run = Exit 1
  /\ stdout (trace (snd run)) = ""
  /\ exists pre,
       trace (snd run)
       = pre ++ [EvListImages
                   (ListImagesInput.mk (Some "app") (Some "t1"))
                   (inl "ThrottlingException");
                 EvLog (LogFatal "ThrottlingException")].
Proof.
  vm_compute. split; [reflexivity|]. split; [reflexivity|].
  eexists (_ :: _ :: _ :: _ :: _ :: _ :: _ :: _ :: _ :: []).
  reflexivity.
Qed.

(** ** One poll cycle: detect or continue *)

Section Cycle.

Context {W Regexp : Type}.
Variable ecrClient : ECR W.
Variable MatchString : Regexp -> string -> bool.
Variable config : Config.
Variable tagRegexp : Regexp.

Local Abbreviation observe' := (observe ecrClient MatchString config tagRegexp).
Local Abbreviation cycle' := (cycle ecrClient MatchString config tagRegexp).
Local Abbreviation watch' := (watch ecrClient MatchString config tagRegexp).

Lemma cycle_detects pages prior (s : State W) current s1 :
  observe' pages s = (Ret current, s1) ->
  detected prior (fst current) = true ->
  cycle' pages prior s = (Ret Return, after s1 (exiting current)).
Proof. intros Ho Hd. rewrite cycle_eq, Ho, Hd. reflexivity. Qed.

Lemma cycle_continues pages prior (s : State W) current s1 :
  observe' pages s = (Ret current, s1) ->
  detected prior (fst current) = false ->
  cycle' pages prior s
  = (Ret (Continue (fst current)), after s1 (sleeping config current)).
Proof. intros Ho Hd. rewrite cycle_eq, Ho, Hd. reflexivity. Qed.

Lemma cycle_Return_inv pages prior (s s' : State W) :
  cycle' pages prior s = (Ret Return, s') ->
  exists current s1,
    observe' pages s = (Ret current, s1)
    /\ detected prior (fst current) = true
    /\ s' = after s1 (exiting current).
Proof.
  rewrite cycle_eq.
  destruct (observe' pages s) as [[current|code|] s1]; try discriminate.
  destruct (detected prior (fst current)) eqn:Hd; intros H; inversion H.
  now exists current, s1.
Qed.

Lemma cycle_Continue_inv pages prior (s s' : State W) t :
  cycle' pages prior s = (Ret (Continue t), s') ->
  exists current s1,
    observe' pages s = (Ret current, s1)
    /\ detected prior (fst current) = false
    /\ t = fst current
    /\ s' = after s1 (sleeping config current).
Proof.
  rewrite cycle_eq.
  destruct (observe' pages s) as [[current|code|] s1]; try discriminate.
  destruct (detected prior (fst current)) eqn:Hd; intros H; inversion H.
  now exists current, s1.
Qed.

(** Whatever a poll cycle observes is the scan of some described
    details; its time is never before the zero time. *)
Lemma observe_scans pages (s : State W) current s1 :
  observe' pages s = (Ret current, s1) ->
  exists details, current = currentMostRecent details.
Proof.
  intros H. apply observe_shape in H as (evs & _ & evs0 & input & out & _ & _ & ->).
  now eexists.
Qed.

Lemma observe_nonneg pages (s : State W) current s1 :
  observe' pages s = (Ret current, s1) -> time.zero <= fst current.
Proof.
  intros H. apply observe_scans in H as [details ->].
  apply currentMostRecent_nonneg.
Qed.

End Cycle.

(** **** C1 *)

(** C1, as the code has it: a poll cycle ends the watch loop with success
    exactly when it observes a newest time, the stored prior time is not
    the zero time, and the observed time is strictly later than the stored
    one.  A cycle that starts from the zero time never ends the loop, so a
    run that returns has made at least two cycles; and when poll 1 has
    recorded the zero time, poll 2 records what it observes and continues,
    whatever it observes. *)
Theorem termination_iff_prior_set_and_strictly_later
        (W Regexp : Type) (ecrClient : ECR W)
        (MatchString : Regexp -> string -> bool) (config : Config)
        (tagRegexp : Regexp) (pages : nat) :
  (forall prior (s : State W),
      (exists s',
          cycle ecrClient MatchString config tagRegexp pages prior s
          = (Ret Return, s'))
      <-> exists current s1,
            observe ecrClient MatchString config tagRegexp pages s
            = (Ret current, s1)
            /\ time.IsZero prior = false
            /\ time.After (fst current) prior = true)
  /\ (forall (s s' : State W),
         cycle ecrClient MatchString config tagRegexp pages time.zero s
         <> (Ret Return, s'))
  /\ (forall cycles (s s' : State W),
         watch ecrClient MatchString config tagRegexp pages cycles time.zero s
         = (Ret tt, s') ->
         exists cycles' t s1,
           cycles = S (S cycles')
           /\ cycle ecrClient MatchString config tagRegexp pages time.zero s
              = (Ret (Continue t), s1)
           /\ watch ecrClient MatchString config tagRegexp pages (S cycles') t s1
              = (Ret tt, s'))
  /\ (forall (s : State W) current s1,
         observe ecrClient MatchString config tagRegexp pages s
         = (Ret current, s1) ->
         cycle ecrClient MatchString config tagRegexp pages time.zero s
         = (Ret (Continue (fst current)), after s1 (sleeping config current))).
Proof.
  assert (Hzero : forall (s s' : State W),
             cycle ecrClient MatchString config tagRegexp pages time.zero s
             <> (Ret Return, s')).
  { intros s s' H. apply cycle_Return_inv in H as (current & s1 & _ & Hd & _).
    rewrite detected_zero_prior in Hd. discriminate. }
  split; [|split; [exact Hzero|split]].
  - intros prior s. split.
    + intros [s' H]. apply cycle_Return_inv in H as (current & s1 & Ho & Hd & _).
      apply detected_iff in Hd. now exists current, s1.
    + intros (current & s1 & Ho & Hz & Ha). eexists.
      apply (cycle_detects _ _ _ _ _ _ _ _ _ Ho). apply detected_iff. auto.
  - intros cycles s s' Hrun.
    destruct cycles as [|cycles]; [discriminate Hrun|].
    rewrite watch_S in Hrun.
    destruct (cycle ecrClient MatchString config tagRegexp pages time.zero s)
      as [[[|t]|code|] s1] eqn:Hc; try discriminate Hrun.
    + now apply Hzero in Hc.
    + destruct cycles as [|cycles']; [discriminate Hrun|].
      now exists cycles', t, s1.
  - intros s current s1 Ho. now apply cycle_continues.
Qed.

(** Poll 1 sees a push at 100 and poll 2 a push at 150: poll 2 ends the
    loop. *)
Lemma termination_iff_prior_set_and_strictly_later_witness :
  let poll1 := cycle Script.client regexp.MatchString Scenario.cfg
                     Script.anchoredLatest 1 time.zero
                     (Script.start Scenario.newPush) in
  fst poll1 = Ret (Continue 100)
  /\ exists s',
       cycle Script.client regexp.MatchString Scenario.cfg
             Script.anchoredLatest 1 100 (snd poll1)
       = (Ret Return, s').
Proof.
  intros poll1. split; [reflexivity|].
  apply (proj1 (termination_iff_prior_set_and_strictly_later
                  _ _ Script.client regexp.MatchString Scenario.cfg
                  Script.anchoredLatest 1)).
  eexists _, _. split; [vm_compute; reflexivity|].
  split; reflexivity.
Defined.

(** The claim as it is written fails: poll 1 records the zero time, poll 2
    observes a push at 150, strictly later than the stored zero time, and
    the loop does not end: poll 2 records 150 and sleeps, and the process
    is still running. *)
Lemma termination_needs_nonzero_prior_counterexample :
  let poll1 := cycle Script.client regexp.MatchString Scenario.cfg
                     Script.anchoredLatest 1 time.zero
                     (Script.start Scenario.zeroThenNonZero) in
  let seen2 := observe Script.client regexp.MatchString Scenario.cfg
                       Script.anchoredLatest 1 (snd poll1) in
  let poll2 := cycle Script.client regexp.MatchString Scenario.cfg
                     Script.anchoredLatest 1 time.zero (snd poll1) in
  fst poll1 = Ret (Continue time.zero)
  /\ fst seen2 = Ret (150, ["latest"])
  /\ time.After 150 time.zero = true
  /\ fst poll2 = Ret (Continue 150)
  /\ fst (watch Script.client regexp.MatchString Scenario.cfg
                Script.anchoredLatest 1 2 time.zero
                (Script.start Scenario.zeroThenNonZero)) = Running
  /\ exitStatus
       (fst (main Script.client regexp.MatchString (Script.env "^latest$")
                  1 2 (Script.start Scenario.zeroThenNonZero))) = None.
Proof. vm_compute. repeat split. Qed.

(** **** C2 *)

(** C2, as the code has it: a poll cycle that does not end the loop
    replaces the stored time by the newest time it observed, whatever the
    direction of the change.  That time is never before the zero time; and
    when the stored time was not zero, the new one is not later than it (a
    strictly later one ends the loop instead), so the stored time stays or
    moves back. *)
Theorem stored_time_is_replaced_by_observed
        (W Regexp : Type) (ecrClient : ECR W)
        (MatchString : Regexp -> string -> bool) (config : Config)
        (tagRegexp : Regexp) (pages : nat) (prior t : time.Time)
        (s s' : State W) :
  cycle ecrClient MatchString config tagRegexp pages prior s
  = (Ret (Continue t), s') ->
  (exists current s1,
      observe ecrClient MatchString config tagRegexp pages s
      = (Ret current, s1)
      /\ t = fst current
      /\ s' = after s1 (sleeping config current))
  /\ time.zero <= t
  /\ (time.IsZero prior = false -> t <= prior).
Proof.
  intros H. apply cycle_Continue_inv in H as (current & s1 & Ho & Hd & -> & ->).
  split; [now exists current, s1|]. split.
  - now apply observe_nonneg in Ho.
  - intros Hz. unfold detected in Hd. rewrite Hz in Hd. simpl in Hd.
    unfold time.After in Hd. apply Z.ltb_ge in Hd. exact Hd.
Qed.

(** The image pushed at 100 is deleted; poll 2 stores 50. *)
Lemma stored_time_is_replaced_by_observed_witness :
  let poll1 := cycle Script.client regexp.MatchString Scenario.cfg
                     Script.anchoredLatest 1 time.zero
                     (Script.start Scenario.deleted) in
  exists current s1,
    observe Script.client regexp.MatchString Scenario.cfg
            Script.anchoredLatest 1 (snd poll1) = (Ret current, s1)
    /\ 50 = fst current.
Proof.
  intros poll1.
  destruct (stored_time_is_replaced_by_observed
              _ _ Script.client regexp.MatchString Scenario.cfg
              Script.anchoredLatest 1 100 50 (snd poll1)
              (snd (cycle Script.client regexp.MatchString Scenario.cfg
                          Script.anchoredLatest 1 100 (snd poll1))))
    as ((current & s1 & Ho & Ht & _) & _ & _).
  - vm_compute. reflexivity.
  - now exists current, s1.
Defined.

(** The claim as it is written fails: the stored time is 100 after poll 1,
    not zero, and poll 2 replaces it by the earlier time 50. *)
Lemma stored_time_moves_back_counterexample :
  let poll1 := cycle Script.client regexp.MatchString Scenario.cfg
                     Script.anchoredLatest 1 time.zero
                     (Script.start Scenario.deleted) in
  let poll2 := cycle Script.client regexp.MatchString Scenario.cfg
                     Script.anchoredLatest 1 100 (snd poll1) in
  fst poll1 = Ret (Continue 100)
  /\ time.IsZero 100 = false
  /\ fst poll2 = Ret (Continue 50)
  /\ 50 < 100
  /\ fst (watch Script.client regexp.MatchString Scenario.cfg
                Script.anchoredLatest 1 2 time.zero
                (Script.start Scenario.deleted)) = Running
  /\ In (EvLog (LogMostRecent 50))
        (trace (snd (watch Script.client regexp.MatchString Scenario.cfg
                           Script.anchoredLatest 1 2 time.zero
                           (Script.start Scenario.deleted)))).
Proof.
  vm_compute. repeat split; auto 20.
Qed.

(** **** C6 *)

(** C6: a cycle that detects a new image logs the exiting line, writes the
    comma-joined tags of the newest detail to standard output, and returns
    from the loop.  In every run of [main] that returns without the help
    flag, the last three events are the successful describe call, the
    exiting line and the joined tags of the newest described detail;
    nothing else was written to standard output, whose whole content is
    that string, with nothing after it; and the exit status is 0. *)
Theorem detection_prints_joined_tags_and_exits_0 :
  (forall (W Regexp : Type) (ecrClient : ECR W)
          (MatchString : Regexp -> string -> bool) (config : Config)
          (tagRegexp : Regexp) (pages cycles : nat) (prior : time.Time)
          (s s1 : State W) (current : time.Time * list string),
      observe ecrClient MatchString config tagRegexp pages s
      = (Ret current, s1) ->
      detected prior (fst current) = true ->
      watch ecrClient MatchString config tagRegexp pages (S cycles) prior s
      = (Ret tt,
         after s1 [EvLog LogExiting;
                   EvStdout (strings_Join (snd current) ",")]))
  /\ (forall (W Regexp : Type) (ecrClient : ECR W)
             (MatchString : Regexp -> string -> bool) (env : Startup Regexp)
             (pages cycles : nat) (s s' : State W) (a : unit),
         flag_h env = false ->
         main ecrClient MatchString env pages cycles s = (Ret a, s') ->
         exists evs0 input out,
           let tags :=
             snd (currentMostRecent (DescribeImagesOutput.ImageDetails out)) in
           trace s' = trace s ++ evs0 ++
                      [EvDescribeImages input (inr out);
                       EvLog LogExiting;
                       EvStdout (strings_Join tags ",")]
           /\ stdout evs0 = ""
           /\ stdout (trace s')
              = (stdout (trace s) ++ strings_Join tags ",")%string
           /\ exitStatus (Ret a) = Some 0).
Proof.
  split.
  - intros W Regexp ecrClient MatchString config tagRegexp pages cycles prior
           s s1 current Ho Hd.
    rewrite watch_S, (cycle_detects _ _ _ _ _ _ _ _ _ Ho Hd). reflexivity.
  - intros W Regexp ecrClient MatchString env pages cycles s s' a Hh Hrun.
    apply main_shape in Hrun as (evs & Htr & evs0 & input & out & -> & Hq);
      [|assumption].
    exists evs0, input, out. cbn zeta. split; [exact Htr|].
    split; [now apply quiet_stdout|]. split; [|reflexivity].
    rewrite Htr, stdout_app, detectEnd_stdout by assumption. reflexivity.
Qed.

(** Poll 2 sees a new image tagged [latest] and [v2]: [latest,v2] is
    printed and the status is 0. *)
Lemma detection_prints_joined_tags_and_exits_0_witness :
  let run := main Script.client regexp.MatchString (Script.env "^latest$")
                  1 2 (Script.start Scenario.newPush) in
  fst run = Ret tt
  /\ stdout (trace (snd run)) = "latest,v2"
  /\ exitStatus (fst run) = Some 0.
Proof.
  intros run.
  destruct (proj2 detection_prints_joined_tags_and_exits_0
              _ _ Script.client regexp.MatchString (Script.env "^latest$")
              1%nat 2%nat (Script.start Scenario.newPush) (snd run) tt)
    as (evs0 & input & out & Htr & _ & Hout & Hst).
  - reflexivity.
  - vm_compute. reflexivity.
  - split; [reflexivity|]. split; [reflexivity|exact Hst].
Defined.

(** **** C8 *)

(** C8: after a successful start-up the first poll cycle runs from the zero
    time, and whatever it observes, the zero time included, it does not end
    the loop: it records the observed time, logs it, sleeps for the
    configured interval, and the loop goes on to the next cycle with that
    time stored. *)
Theorem first_poll_never_terminates
        (W Regexp : Type) (ecrClient : ECR W)
        (MatchString : Regexp -> string -> bool) (env : Startup Regexp)
        (config : Config) (tagRegexp : Regexp) (pages cycles : nat)
        (s s1 : State W) (current : time.Time * list string) :
  started env config tagRegexp ->
  observe ecrClient MatchString config tagRegexp pages
          (after s [EvLog LogRunning]) = (Ret current, s1) ->
  let s2 := after s1 [EvLog (LogMostRecent (fst current));
                      EvLog (LogSleeping (Interval config));
                      EvSleep (Interval config)] in
  cycle ecrClient MatchString config tagRegexp pages time.zero
        (after s [EvLog LogRunning])
  = (Ret (Continue (fst current)), s2)
  /\ main ecrClient MatchString env pages (S cycles) s
     = watch ecrClient MatchString config tagRegexp pages cycles
             (fst current) s2.
Proof.
  intros Hstart Ho s2.
  assert (Hc : cycle ecrClient MatchString config tagRegexp pages time.zero
                     (after s [EvLog LogRunning])
               = (Ret (Continue (fst current)), s2)).
  { apply (cycle_continues _ _ _ _ _ _ _ _ _ Ho). apply detected_zero_prior. }
  split; [exact Hc|].
  rewrite (main_started _ _ _ _ _ _ _ _ Hstart), watch_S, Hc. reflexivity.
Qed.

(** Poll 1 sees no image: it stores the zero time, sleeps 30 s and poll 2
    follows. *)
Lemma first_poll_never_terminates_witness :
  let s0 := Script.start Scenario.zeroThenNonZero in
  fst (cycle Script.client regexp.MatchString Scenario.cfg
             Script.anchoredLatest 1 time.zero (after s0 [EvLog LogRunning]))
  = Ret (Continue time.zero)
  /\ fst (main Script.client regexp.MatchString (Script.env "^latest$") 1 1 s0)
     = Running.
Proof.
  intros s0.
  destruct (first_poll_never_terminates
              _ _ Script.client regexp.MatchString (Script.env "^latest$")
              Scenario.cfg Script.anchoredLatest 1 0
              s0
              (snd (observe Script.client regexp.MatchString Scenario.cfg
                            Script.anchoredLatest 1
                            (after s0 [EvLog LogRunning])))
              (time.zero, []))
    as [Hc Hm].
  - repeat split.
  - vm_compute. reflexivity.
  - rewrite Hc, Hm. split; reflexivity.
Defined.

(** **** C9 *)

(** C9: there is a detecting run whose output is empty.  With the pattern
    [.*], poll 1 sees an image pushed at 100 and poll 2 a newer one, pushed
    at 150, that has no tag: the run returns with status 0, the string it
    prints is the join of the empty tag list, the empty string, and
    standard output is empty. *)
Theorem detection_may_print_empty_string :
  let run := main Script.client regexp.MatchString (Script.env ".*")
                  1 2 (Script.start Scenario.untaggedPush) in
  strings_Join [] "," = ""
  /\ fst run = Ret tt
  /\ exitStatus (fst run) = Some 0
  /\ stdout (trace (snd run)) = ""
  /\ (exists evs input,
         trace (snd run)
         = evs ++ [EvDescribeImages input
                     (Script.details
                        [Script.detail 100 ["v1"];
                         ImageDetail.mk (Some 150) []]);
                   EvLog LogExiting;
                   EvStdout ""])
  /\ currentMostRecent [Script.detail 100 ["v1"];
                        ImageDetail.mk (Some 150) []] = (150, []).
Proof.
  vm_compute. repeat split.
  eexists (_ :: _ :: _ :: _ :: _ :: _ :: _ :: _ :: _ :: _ :: []), _.
  reflexivity.
Qed.

(** **** C10 *)

Lemma newer_unset (before : list ImageDetail.t) (d : ImageDetail.t) :
  pushedAt d = time.zero ->
  newer (currentMostRecent before) d = currentMostRecent before.
Proof.
  intros Hd. apply newer_keeps. rewrite Hd.
  apply currentMostRecent_nonneg.
Qed.

Lemma currentMostRecent_all_unset (details : list ImageDetail.t) :
  Forall (fun d => pushedAt d = time.zero) details ->
  currentMostRecent details = (time.zero, []).
Proof.
  induction details as [|d details IH] using rev_ind; [reflexivity|].
  intros H. apply Forall_app in H as [Hall Hd]. inversion Hd; subst.
  rewrite currentMostRecent_snoc, newer_unset by assumption. now apply IH.
Qed.

Lemma not_detected_at_zero (earlier : list ImageDetail.t) :
  detected (fst (currentMostRecent earlier)) time.zero = false.
Proof.
  unfold detected, time.After, time.zero.
  pose proof (currentMostRecent_nonneg earlier) as H.
  destruct (Z.ltb_spec (fst (currentMostRecent earlier)) 0); [lia|].
  apply andb_false_r.
Qed.

(** C10: a detail whose push time is the zero value never replaces the
    candidate of the scan, so the scan gives the same result with or
    without it; when every described detail has an unset push time the
    scan yields the zero time and the empty tag list; and a poll cycle
    whose describe call returns such details does not end the loop,
    whatever the stored time (the zero time of the start, or the newest
    time of an earlier cycle): it stores the zero time and continues. *)
Theorem unset_push_time_never_selected :
  (forall before d,
      pushedAt d = time.zero ->
      newer (currentMostRecent before) d = currentMostRecent before)
  /\ (forall before d rest,
         pushedAt d = time.zero ->
         currentMostRecent (before ++ d :: rest)
         = currentMostRecent (before ++ rest))
  /\ (forall details,
         Forall (fun d => pushedAt d = time.zero) details ->
         currentMostRecent details = (time.zero, []))
  /\ (forall (W Regexp : Type) (ecrClient : ECR W)
             (MatchString : Regexp -> string -> bool) (config : Config)
             (tagRegexp : Regexp) (pages : nat)
             (earlier : list ImageDetail.t) (s s0 : State W)
             (imageIDs : list ImageIdentifier.t)
             (out : DescribeImagesOutput.t) (w : W),
         let input := DescribeImagesInput.mk (Some (Repository config))
                                             imageIDs in
         let s1 := mkState w (trace s0 ++ [EvDescribeImages input (inr out)]) in
         listLoop ecrClient MatchString tagRegexp pages (firstInput config) [] s
         = (Ret imageIDs, s0) ->
         ecr_DescribeImages ecrClient input (world s0) = (inr out, w) ->
         Forall (fun d => pushedAt d = time.zero)
                (DescribeImagesOutput.ImageDetails out) ->
         observe ecrClient MatchString config tagRegexp pages s
         = (Ret (time.zero, []), s1)
         /\ cycle ecrClient MatchString config tagRegexp pages
                  (fst (currentMostRecent earlier)) s
            = (Ret (Continue time.zero),
               after s1 (sleeping config (time.zero, [])))).
Proof.
  split; [exact newer_unset|]. split; [|split].
  - intros before d rest Hd. unfold currentMostRecent.
    rewrite !fold_left_app. cbn [fold_left].
    fold (currentMostRecent before). now rewrite newer_unset.
  - exact currentMostRecent_all_unset.
  - intros W Regexp ecrClient MatchString config tagRegexp pages earlier
           s s0 imageIDs out w input s1 Hlist Hdesc Hall.
    assert (Ho : observe ecrClient MatchString config tagRegexp pages s
                 = (Ret (time.zero, []), s1)).
    { rewrite observe_eq, Hlist. cbn zeta. fold input. rewrite Hdesc.
      now rewrite currentMostRecent_all_unset. }
    split; [exact Ho|].
    apply (cycle_continues _ _ _ _ _ _ _ _ _ Ho). apply not_detected_at_zero.
Qed.

(** Poll 1 stored 100; the details of poll 2 lack their push time: poll 2
    stores the zero time and continues. *)
Lemma unset_push_time_never_selected_witness :
  let poll1 := cycle Script.client regexp.MatchString Scenario.cfg
                     Script.anchoredLatest 1 time.zero
                     (Script.start Scenario.unsetPush) in
  fst poll1 = Ret (Continue 100)
  /\ currentMostRecent Scenario.unsetTimes = (time.zero, [])
  /\ fst (cycle Script.client regexp.MatchString Scenario.cfg
                Script.anchoredLatest 1 100 (snd poll1))
     = Ret (Continue time.zero).
Proof.
  intros poll1.
  destruct unset_push_time_never_selected as (_ & _ & Hall & Hcycle).
  split; [reflexivity|]. split.
  - apply Hall. repeat constructor.
  - destruct (Hcycle _ _ Script.client regexp.MatchString Scenario.cfg
                Script.anchoredLatest 1%nat [Script.detail 100 ["latest"]]
                (snd poll1)
                (snd (listLoop Script.client regexp.MatchString
                               Script.anchoredLatest 1
                               (firstInput Scenario.cfg) [] (snd poll1)))
                [Scenario.latest1]
                (DescribeImagesOutput.mk Scenario.unsetTimes)
                (Script.mk [] []))
      as [_ Hc].
    + vm_compute. reflexivity.
    + reflexivity.
    + repeat constructor.
    + change (fst (currentMostRecent [Script.detail 100 ["latest"]]))
        with 100 in Hc.
      rewrite Hc. reflexivity.
Defined.

(** * Further properties of [main] *)

(** ** The newest push time is a maximum *)

Lemma fold_right_max_base (l : list Z) (a b : Z) :
  fold_right Z.max (Z.max a b) l = Z.max b (fold_right Z.max a l).
Proof. induction l as [|x l IH]; simpl; [lia|rewrite IH; lia]. Qed.

Lemma newer_time (cur : time.Time * list string) (d : ImageDetail.t) :
  fst (newer cur d) = Z.max (fst cur) (pushedAt d).
Proof.
  destruct (Z.lt_ge_cases (fst cur) (pushedAt d)) as [H|H].
  - rewrite (newer_replaces _ _ H). simpl. lia.
  - rewrite (newer_keeps _ _ H). lia.
Qed.

Lemma scan_time (details : list ImageDetail.t) :
  forall cur,
    fst (fold_left newer details cur)
    = fold_right Z.max (fst cur) (map pushedAt details).
Proof.
  induction details as [|d details IH]; intros cur; [reflexivity|].
  simpl. rewrite IH, newer_time. apply fold_right_max_base.
Qed.

Lemma latest_upper_bound (details : list ImageDetail.t) (d : ImageDetail.t) :
  In d details -> pushedAt d <= latest details.
Proof.
  unfold latest. induction details as [|x details IH]; simpl; [tauto|].
  intros [->|Hin]; [lia|]. apply IH in Hin. lia.
Qed.

Lemma latest_Permutation (details details' : list ImageDetail.t) :
  Permutation details details' -> latest details = latest details'.
Proof.
  unfold latest. induction 1; simpl; lia.
Qed.

(** X3. The time the scan of lines 97 to 104 returns is the maximum of the
    zero time and the push times of the details: no detail is later than
    it, and it does not depend on the order in which the registry returns
    the details, so neither does the decision of line 106. *)
Theorem newest_time_is_order_independent :
  (forall details, fst (currentMostRecent details) = latest details)
  /\ (forall details d,
         In d details -> pushedAt d <= fst (currentMostRecent details))
  /\ (forall details details',
         Permutation details details' ->
         fst (currentMostRecent details) = fst (currentMostRecent details')
         /\ forall prior,
              detected prior (fst (currentMostRecent details))
              = detected prior (fst (currentMostRecent details'))).
Proof.
  assert (H : forall details, fst (currentMostRecent details) = latest details).
  { intros details. unfold currentMostRecent, latest. apply scan_time. }
  split; [exact H|]. split.
  - intros details d Hin. rewrite H. now apply latest_upper_bound.
  - intros details details' Hp.
    assert (Heq : fst (currentMostRecent details)
                  = fst (currentMostRecent details'))
      by (rewrite !H; now apply latest_Permutation).
    split; [exact Heq|]. intros prior. now rewrite Heq.
Qed.

(** Two details in either order: the time is the same; on a tie the tags
    are those of the detail that comes first. *)
Lemma newest_time_is_order_independent_witness :
  let a := Script.detail 7 ["a"] in
  let b := Script.detail 7 ["b"] in
  fst (currentMostRecent [a; b]) = fst (currentMostRecent [b; a])
  /\ snd (currentMostRecent [a; b]) = ["a"]
  /\ snd (currentMostRecent [b; a]) = ["b"].
Proof.
  intros a b. split; [|split; reflexivity].
  apply (proj2 (proj2 newest_time_is_order_independent) [a; b] [b; a]).
  apply perm_swap.
Defined.

(** ** Start-up *)






(** ** The anatomy of the pagination loop and of a poll cycle *)

Ltac flatten_app :=
  repeat (rewrite <- app_assoc || rewrite <- app_comm_cons).

Section Anatomy.

Context {W Regexp : Type}.
Variable ecrClient : ECR W.
Variable MatchString : Regexp -> string -> bool.
Variable config : Config.
Variable tagRegexp : Regexp.

Lemma listLoop_paginated (pages : nat) :
  forall input imageIDs (s : State W) r s',
    listLoop ecrClient MatchString tagRegexp pages input imageIDs s = (r, s') ->
    exists listed,
      paginated ecrClient MatchString tagRegexp pages input imageIDs s r s'
                listed.
Proof.
  induction pages as [|pages IH]; intros input imageIDs s r s' Hrun.
  - inversion Hrun; subst. exists []. simpl. now rewrite app_nil_r.
  - rewrite listLoop_S in Hrun.
    destruct (ecr_ListImages ecrClient input (world s))
      as [[err|page] w] eqn:Hcall.
    + inversion Hrun; subst. exists []. simpl.
      repeat split; auto; try lia. now exists input, err.
    + cbn zeta in Hrun.
      destruct (ListImagesOutput.NextToken page) as [token|] eqn:Htok.
      * apply IH in Hrun as [listed Hp]. exists (page :: listed).
        assert (Hpage : hasToken page) by (unfold hasToken; congruence).
        destruct r as [ids|code|]; cbn [paginated] in *;
          cbn [world trace flat_map pageEvents List.length] in *.
        -- destruct Hp as (Hs & Hlen & -> & Htr). repeat split.
           ++ now apply (Serves_more _ _ _ _ w token).
           ++ lia.
           ++ now rewrite <- app_assoc.
           ++ rewrite Htr. flatten_app. reflexivity.
        -- destruct Hp as (-> & Hall & Hlen & input' & err & Hrepo & Htr).
           repeat split; auto; try lia.
           exists input', err. split; [exact Hrepo|].
           rewrite Htr. flatten_app. reflexivity.
        -- destruct Hp as (Hall & Hlen & Htr). repeat split; auto.
           rewrite Htr. flatten_app. reflexivity.
      * inversion Hrun; subst. exists [page].
        cbn [paginated world trace flat_map pageEvents List.length].
        rewrite !app_nil_r. repeat split; auto; try lia.
        now apply Serves_last.
Qed.

Lemma cycle_anatomy (pages : nat) (prior : time.Time) (s : State W) c s' :
  cycle ecrClient MatchString config tagRegexp pages prior s = (c, s') ->
  exists listed tail,
    trace s' = trace s
               ++ pageEvents MatchString tagRegexp (firstInput config) listed
               ++ tail
    /\ (List.length listed <= pages)%nat
    /\ (c = Running -> List.length listed = pages)
    /\ cycleTail config prior
         (flat_map (fun page => keep MatchString tagRegexp
                                     (ListImagesOutput.ImageIds page)) listed)
         c tail.
Proof.
  rewrite cycle_eq, observe_eq. intros Hrun.
  destruct (listLoop ecrClient MatchString tagRegexp pages
                     (firstInput config) [] s) as [[ids|code|] s0] eqn:Hlist;
    apply listLoop_paginated in Hlist as [listed Hp]; cbn [paginated] in Hp;
    exists listed.
  - destruct Hp as (_ & Hlen & -> & Htr). cbn [app] in *. cbn zeta in Hrun.
    destruct (ecr_DescribeImages ecrClient _ (world s0)) as [[err|out] w].
    + inversion Hrun; subst. eexists. cbn [trace]. rewrite Htr, <- app_assoc.
      split; [reflexivity|]. split; [exact Hlen|]. split; [discriminate|].
      simpl. split; [reflexivity|]. exists err. now left.
    + destruct (detected prior _) eqn:Hd; inversion Hrun; subst; eexists;
        cbn [trace]; rewrite Htr, <- !app_assoc;
        (split; [reflexivity|]); (split; [exact Hlen|]);
        (split; [discriminate|]); simpl; exists out; auto.
  - destruct Hp as (-> & _ & Hlen & input' & err & Hrepo & Htr).
    inversion Hrun; subst. eexists. split; [exact Htr|].
    split; [lia|]. split; [discriminate|]. simpl. split; [reflexivity|].
    exists err. right. now exists input'.
  - destruct Hp as (_ & Hlen & Htr). inversion Hrun; subst. exists [].
    rewrite app_nil_r. repeat split; auto; lia.
Qed.

End Anatomy.

Lemma Serves_last_page {W} (ecrClient : ECR W) w input listed w' :
  Serves ecrClient w input listed w' ->
  exists front final,
    listed = front ++ [final]
    /\ Forall hasToken front
    /\ ListImagesOutput.NextToken final = None.
Proof.
  induction 1 as [w input page w' Hcall Htok
                 |w input page w1 token rest w' Hcall Htok Hrest IH].
  - exists [], page. auto.
  - destruct IH as (front & final & -> & Hall & Hnone).
    exists (page :: front), final. repeat split; auto.
    constructor; [unfold hasToken; congruence|exact Hall].
Qed.

(** X4. Lines 67 to 85, for any behaviour of the registry: the pagination loop
    returns only after a page without continuation token, every page
    before it having carried one, and then its result is the identifiers
    it was given followed by the matching identifiers of the pages in
    order; when a list call fails the loop exits with status 1 and what was
    accumulated is not used; and when the bound on pages is reached every
    page read carried a token.  In each case the events are those of the
    pages read, each request after the first carrying the token of the
    page before. *)
Theorem pagination_returns_after_tokenless_page
        (W Regexp : Type) (ecrClient : ECR W)
        (MatchString : Regexp -> string -> bool) (tagRegexp : Regexp)
        (pages : nat) (input : ListImagesInput.t)
        (imageIDs : list ImageIdentifier.t) (s s' : State W)
        (r : Res (list ImageIdentifier.t)) :
  listLoop ecrClient MatchString tagRegexp pages input imageIDs s = (r, s') ->
  exists listed,
    paginated ecrClient MatchString tagRegexp pages input imageIDs s r s'
              listed
    /\ (forall imageIDs',
           r = Ret imageIDs' ->
           exists front final,
             listed = front ++ [final]
             /\ Forall hasToken front
             /\ ListImagesOutput.NextToken final = None).
Proof.
  intros Hrun. apply listLoop_paginated in Hrun as [listed Hp].
  exists listed. split; [exact Hp|].
  intros imageIDs' ->. destruct Hp as (Hs & _).
  now apply Serves_last_page in Hs.
Qed.

(** With a bound of two pages on a registry that has three, the loop is
    still reading: both pages read carried a token. *)
Lemma pagination_returns_after_tokenless_page_witness :
  exists listed,
    paginated Script.client regexp.MatchString Script.anchoredLatest 2
              (firstInput Scenario.cfg) [] (Script.start Scenario.threePages)
              Running
              (snd (listLoop Script.client regexp.MatchString
                             Script.anchoredLatest 2 (firstInput Scenario.cfg)
                             [] (Script.start Scenario.threePages)))
              listed.
Proof.
  destruct (pagination_returns_after_tokenless_page
              _ _ Script.client regexp.MatchString Script.anchoredLatest 2
              (firstInput Scenario.cfg) [] (Script.start Scenario.threePages)
              (snd (listLoop Script.client regexp.MatchString
                             Script.anchoredLatest 2 (firstInput Scenario.cfg)
                             [] (Script.start Scenario.threePages)))
              Running)
    as (listed & Hp & _).
  - vm_compute. reflexivity.
  - now exists listed.
Defined.

(** ** Requests and pauses follow the configuration *)

Section Configured.

Context {W Regexp : Type}.
Variable ecrClient : ECR W.
Variable MatchString : Regexp -> string -> bool.
Variable config : Config.
Variable tagRegexp : Regexp.

Local Abbreviation ok := (asConfigured MatchString config tagRegexp).
Local Abbreviation keepPage :=
  (fun page => keep MatchString tagRegexp (ListImagesOutput.ImageIds page)).

Lemma matchedLines_ok ids : Forall ok (matchedLines ids).
Proof. induction ids; simpl; constructor; simpl; auto. Qed.

Lemma pageEvents_ok listed :
  forall input,
    ListImagesInput.RepositoryName input = Some (Repository config) ->
    Forall ok (pageEvents MatchString tagRegexp input listed).
Proof.
  induction listed as [|page listed IH]; intros input Hrepo; simpl.
  - constructor.
  - constructor; [exact Hrepo|]. apply Forall_app. split.
    + apply matchedLines_ok.
    + apply IH. exact Hrepo.
Qed.

Lemma kept_matched (listed : list ListImagesOutput.t) :
  Forall (fun imageID => matched MatchString tagRegexp imageID = true)
         (flat_map keepPage listed).
Proof.
  apply Forall_forall. intros imageID Hin.
  apply in_flat_map in Hin as (page & _ & Hin).
  unfold keep in Hin. now apply filter_In in Hin.
Qed.

Lemma cycleTail_ok prior listed c tail :
  cycleTail config prior (flat_map keepPage listed) c tail ->
  Forall ok tail.
Proof.
  pose proof (kept_matched listed) as Hk.
  destruct c as [[|t]|code|]; simpl.
  - intros (out & _ & ->). repeat constructor; simpl; auto.
  - intros (out & _ & _ & ->). repeat constructor; simpl; auto.
  - intros (_ & err & [->|(input' & Hrepo & ->)]);
      repeat constructor; simpl; auto.
  - intros ->. constructor.
Qed.

Lemma cycle_ok pages prior (s : State W) c s' :
  cycle ecrClient MatchString config tagRegexp pages prior s = (c, s') ->
  exists evs, trace s' = trace s ++ evs /\ Forall ok evs.
Proof.
  intros Hrun. apply cycle_anatomy in Hrun as (listed & tail & Htr & _ & _ & Ht).
  eexists. split; [exact Htr|]. apply Forall_app. split.
  - now apply pageEvents_ok.
  - now apply cycleTail_ok in Ht.
Qed.

Lemma watch_ok pages cycles :
  forall prior (s : State W) r s',
    watch ecrClient MatchString config tagRegexp pages cycles prior s
    = (r, s') ->
    exists evs, trace s' = trace s ++ evs /\ Forall ok evs.
Proof.
  induction cycles as [|cycles IH]; intros prior s r s' Hrun.
  - inversion Hrun; subst. exists []. rewrite app_nil_r. auto.
  - rewrite watch_S in Hrun.
    destruct (cycle ecrClient MatchString config tagRegexp pages prior s)
      as [[[|t]|code|] s1] eqn:Hc; apply cycle_ok in Hc as (evs & Htr & Hok);
      try (inversion Hrun; subst; now exists evs).
    apply IH in Hrun as (evs' & Htr' & Hok').
    exists (evs ++ evs'). split; [now rewrite Htr', Htr, app_assoc|].
    apply Forall_app. auto.
Qed.

End Configured.

(** X5. Lines 62 to 115, in every run that passed the start-up: each list and
    each describe request names the configured repository, each
    identifier given to a describe request has a tag that the pattern
    matches, and each pause (and the line that announces it) is of the
    configured interval. *)
Theorem requests_and_pauses_follow_configuration
        (W Regexp : Type) (ecrClient : ECR W)
        (MatchString : Regexp -> string -> bool) (env : Startup Regexp)
        (config : Config) (tagRegexp : Regexp) (pages cycles : nat)
        (s s' : State W) (r : Res unit) :
  started env config tagRegexp ->
  main ecrClient MatchString env pages cycles s = (r, s') ->
  exists evs,
    trace s' = trace s ++ evs
    /\ Forall (asConfigured MatchString config tagRegexp) evs.
Proof.
  intros Hst Hrun. rewrite (main_started _ _ _ _ _ _ _ _ Hst) in Hrun.
  apply watch_ok in Hrun as (evs & Htr & Hok). cbn [after trace] in Htr.
  exists (EvLog LogRunning :: evs). split.
  - rewrite Htr. flatten_app. reflexivity.
  - constructor; [exact I|exact Hok].
Qed.

(** Two polls on the scripted registry: the requests and the pause. *)
Lemma requests_and_pauses_follow_configuration_witness :
  Forall (asConfigured regexp.MatchString Scenario.cfg Script.anchoredLatest)
         (trace (snd (main Script.client regexp.MatchString
                           (Script.env "^latest$") 1 2
                           (Script.start Scenario.newPush)))).
Proof.
  destruct (requests_and_pauses_follow_configuration
              _ _ Script.client regexp.MatchString (Script.env "^latest$")
              Scenario.cfg Script.anchoredLatest 1 2
              (Script.start Scenario.newPush)
              (snd (main Script.client regexp.MatchString
                         (Script.env "^latest$") 1 2
                         (Script.start Scenario.newPush)))
              (Ret tt))
    as (evs & Htr & Hok).
  - repeat split.
  - vm_compute. reflexivity.
  - rewrite Htr. exact Hok.
Defined.

(** ** One pause per poll that continues *)

Section Pauses.

Context {W Regexp : Type}.
Variable ecrClient : ECR W.
Variable MatchString : Regexp -> string -> bool.
Variable config : Config.
Variable tagRegexp : Regexp.

Lemma pauses_app evs evs' : pauses (evs ++ evs') = (pauses evs + pauses evs')%nat.
Proof. unfold pauses. now rewrite filter_app, length_app. Qed.

Lemma polls_app evs evs' : polls (evs ++ evs') = (polls evs + polls evs')%nat.
Proof. unfold polls. now rewrite filter_app, length_app. Qed.

Lemma matchedLines_idle ids :
  pauses (matchedLines ids) = 0%nat /\ polls (matchedLines ids) = 0%nat.
Proof. induction ids; simpl; auto. Qed.

Lemma pageEvents_idle listed :
  forall input,
    pauses (pageEvents MatchString tagRegexp input listed) = 0%nat
    /\ polls (pageEvents MatchString tagRegexp input listed) = 0%nat.
Proof.
  induction listed as [|page listed IH]; intros input; [split; reflexivity|].
  cbn [pageEvents].
  change (EvListImages input (inr page) :: ?l)
    with ([EvListImages input (inr page)] ++ l).
  rewrite !pauses_app, !polls_app.
  destruct (matchedLines_idle
              (keep MatchString tagRegexp (ListImagesOutput.ImageIds page)))
    as [-> ->].
  destruct (IH (nextInput input page)) as [-> ->]. split; reflexivity.
Qed.


Lemma cycle_pauses pages prior (s : State W) c s' :
  cycle ecrClient MatchString config tagRegexp pages prior s = (c, s') ->
  exists evs,
    trace s' = trace s ++ evs
    /\ (pauses evs + detections isReturn c = polls evs)%nat.
Proof.
  intros Hrun. apply cycle_anatomy in Hrun as (listed & tail & Htr & _ & _ & Ht).
  eexists. split; [exact Htr|]. rewrite pauses_app, polls_app.
  destruct (pageEvents_idle listed (firstInput config)) as [-> ->].
  destruct c as [[|t]|code|]; simpl in Ht.
  - destruct Ht as (out & _ & ->). reflexivity.
  - destruct Ht as (out & _ & _ & ->). reflexivity.
  - destruct Ht as (_ & err & [->|(input' & _ & ->)]); reflexivity.
  - subst tail. reflexivity.
Qed.

Lemma watch_pauses pages cycles :
  forall prior (s : State W) r s',
    watch ecrClient MatchString config tagRegexp pages cycles prior s
    = (r, s') ->
    exists evs,
      trace s' = trace s ++ evs
      /\ (pauses evs + detections (fun _ : unit => true) r = polls evs)%nat.
Proof.
  induction cycles as [|cycles IH]; intros prior s r s' Hrun.
  - inversion Hrun; subst. exists []. rewrite app_nil_r. auto.
  - rewrite watch_S in Hrun.
    destruct (cycle ecrClient MatchString config tagRegexp pages prior s)
      as [[[|t]|code|] s1] eqn:Hc;
      apply cycle_pauses in Hc as (evs & Htr & Hn); simpl in Hn;
      try (inversion Hrun; subst; now exists evs).
    apply IH in Hrun as (evs' & Htr' & Hn').
    exists (evs ++ evs'). split; [now rewrite Htr', Htr, app_assoc|].
    rewrite pauses_app, polls_app. lia.
Qed.

End Pauses.

(** X6. Lines 106 to 115, in every run that passed the start-up: the process
    pauses exactly once after each poll whose describe call succeeded,
    except after the poll that detects; a poll that fails is followed by no
    pause.  So the number of pauses is the number of completed polls, less
    one when [main] has returned. *)
Theorem one_pause_per_continuing_poll
        (W Regexp : Type) (ecrClient : ECR W)
        (MatchString : Regexp -> string -> bool) (env : Startup Regexp)
        (config : Config) (tagRegexp : Regexp) (pages cycles : nat)
        (s s' : State W) (r : Res unit) :
  started env config tagRegexp ->
  main ecrClient MatchString env pages cycles s = (r, s') ->
  exists evs,
    trace s' = trace s ++ evs
    /\ (pauses evs + detections (fun _ : unit => true) r = polls evs)%nat.
Proof.
  intros Hst Hrun. rewrite (main_started _ _ _ _ _ _ _ _ Hst) in Hrun.
  apply watch_pauses in Hrun as (evs & Htr & Hn). cbn [after trace] in Htr.
  exists (EvLog LogRunning :: evs). split.
  - rewrite Htr. flatten_app. reflexivity.
  - exact Hn.
Qed.

(** The list call of poll 2 fails: one completed poll, one pause. *)
Lemma one_pause_per_continuing_poll_witness :
  let run := main Script.client regexp.MatchString (Script.env "^latest$")
                  2 5 (Script.start Scenario.listFails) in
  pauses (trace (snd run)) = 1%nat /\ polls (trace (snd run)) = 1%nat.
Proof.
  intros run.
  destruct (one_pause_per_continuing_poll
              _ _ Script.client regexp.MatchString (Script.env "^latest$")
              Scenario.cfg Script.anchoredLatest 2 5
              (Script.start Scenario.listFails) (snd run) (fst run))
    as (evs & Htr & Hn).
  - repeat split.
  - vm_compute. reflexivity.
  - split; reflexivity.
Defined.

(** ** A registry that never ends its listing *)

Section EndlessListing.

Context {W Regexp : Type}.
Variable ecrClient : ECR W.
Variable MatchString : Regexp -> string -> bool.
Variable tagRegexp : Regexp.

Hypothesis always_token :
  forall input w,
  exists page w',
    ecr_ListImages ecrClient input w = (inr page, w') /\ hasToken page.

Lemma listLoop_endless (pages : nat) :
  forall input imageIDs (s : State W),
  exists s',
    listLoop ecrClient MatchString tagRegexp pages input imageIDs s
    = (Running, s').
Proof.
  induction pages as [|pages IH]; intros input imageIDs s.
  - now exists s.
  - rewrite listLoop_S.
    destruct (always_token input (world s)) as (page & w' & -> & Htok).
    cbn zeta. destruct (ListImagesOutput.NextToken page) eqn:Hn.
    + apply IH.
    + now elim Htok.
Qed.

End EndlessListing.

(** X7. Lines 67 to 85 have no bound of their own: when every page the
    registry returns carries a continuation token, the first poll never
    gets past its listing.  Whatever the bound on pages, after a successful
    start-up the process is still running, it has read that many pages, all
    with a token, and it has made no describe call and no pause. *)
Theorem endless_listing_never_describes
        (W Regexp : Type) (ecrClient : ECR W)
        (MatchString : Regexp -> string -> bool) (env : Startup Regexp)
        (config : Config) (tagRegexp : Regexp) (pages cycles : nat)
        (s : State W) :
  started env config tagRegexp ->
  (forall input w,
      exists page w',
        ecr_ListImages ecrClient input w = (inr page, w') /\ hasToken page) ->
  exists s' listed,
    main ecrClient MatchString env pages (S cycles) s = (Running, s')
    /\ List.length listed = pages
    /\ Forall hasToken listed
    /\ trace s' = trace s ++ EvLog LogRunning
                             :: pageEvents MatchString tagRegexp
                                           (firstInput config) listed
    /\ filter isDescribeImages
              (pageEvents MatchString tagRegexp (firstInput config) listed)
       = []
    /\ pauses (pageEvents MatchString tagRegexp (firstInput config) listed)
       = 0%nat.
Proof.
  intros Hst Hend.
  rewrite (main_started _ _ _ _ _ _ _ _ Hst), watch_S, cycle_eq, observe_eq.
  destruct (listLoop_endless ecrClient MatchString tagRegexp Hend pages
              (firstInput config) [] (after s [EvLog LogRunning]))
    as [s' Hl].
  rewrite Hl. apply listLoop_paginated in Hl as [listed (Hall & Hlen & Htr)].
  exists s', listed. split; [reflexivity|]. split; [exact Hlen|].
  split; [exact Hall|]. split; [|split].
  - rewrite Htr. cbn [after trace]. flatten_app. reflexivity.
  - apply pageEvents_calls.
  - apply pageEvents_idle.
Qed.

(** The registry of [Endless]: with a bound of 4 pages, 4 list calls and
    the process is still running. *)
Lemma endless_listing_never_describes_witness :
  let run := main Endless.client regexp.MatchString (Script.env "^latest$")
                  4 1 (mkState 0%nat []) in
  fst run = Running
  /\ List.length (filter isListImages (trace (snd run))) = 4%nat
  /\ filter isDescribeImages (trace (snd run)) = [].
Proof.
  intros run.
  destruct (endless_listing_never_describes
              _ _ Endless.client regexp.MatchString (Script.env "^latest$")
              Scenario.cfg Script.anchoredLatest 4 0 (mkState 0%nat []))
    as (s' & listed & Hrun & _).
  - repeat split.
  - intros input w. eexists _, _. split; [reflexivity|]. discriminate.
  - split; [unfold run; rewrite Hrun; reflexivity|].
    split; vm_compute; reflexivity.
Defined.

(** ** A registry whose newest image does not change *)

Section Steady.

Context {W Regexp : Type}.
Variable ecrClient : ECR W.
Variable MatchString : Regexp -> string -> bool.
Variable config : Config.
Variable tagRegexp : Regexp.
Variable good : W -> Prop.
Variable t : time.Time.

Hypothesis list_keeps_good :
  forall input w r w',
    good w -> ecr_ListImages ecrClient input w = (r, w') -> good w'.

Hypothesis describe_is_steady :
  forall input w r w',
    good w -> ecr_DescribeImages ecrClient input w = (r, w') ->
    good w'
    /\ forall out,
         r = inr out ->
         fst (currentMostRecent (DescribeImagesOutput.ImageDetails out)) = t.

Lemma listLoop_good (pages : nat) :
  forall input imageIDs (s : State W) r s',
    good (world s) ->
    listLoop ecrClient MatchString tagRegexp pages input imageIDs s = (r, s') ->
    good (world s').
Proof.
  induction pages as [|pages IH]; intros input imageIDs s r s' Hg Hrun.
  - inversion Hrun; subst. exact Hg.
  - rewrite listLoop_S in Hrun.
    destruct (ecr_ListImages ecrClient input (world s))
      as [[err|page] w] eqn:Hcall;
      apply (list_keeps_good _ _ _ _ Hg) in Hcall.
    + inversion Hrun; subst. exact Hcall.
    + cbn zeta in Hrun. destruct (ListImagesOutput.NextToken page).
      * apply IH in Hrun; [exact Hrun|exact Hcall].
      * inversion Hrun; subst. exact Hcall.
Qed.

Lemma observe_steady (pages : nat) (s : State W) r s' :
  good (world s) ->
  observe ecrClient MatchString config tagRegexp pages s = (r, s') ->
  good (world s') /\ forall current, r = Ret current -> fst current = t.
Proof.
  intros Hg. rewrite observe_eq.
  destruct (listLoop ecrClient MatchString tagRegexp pages
                     (firstInput config) [] s) as [[ids|code|] s0] eqn:Hl;
    apply (listLoop_good _ _ _ _ _ _ Hg) in Hl; intros Hrun.
  - cbn zeta in Hrun.
    destruct (ecr_DescribeImages ecrClient _ (world s0))
      as [[err|out] w] eqn:Hd;
      apply (describe_is_steady _ _ _ _ Hl) in Hd as [Hg' Ht];
      inversion Hrun; subst; (split; [exact Hg'|]).
    + discriminate.
    + intros current Hc. inversion Hc; subst. now apply Ht.
  - inversion Hrun; subst. split; [exact Hl|discriminate].
  - inversion Hrun; subst. split; [exact Hl|discriminate].
Qed.

Lemma watch_steady (pages cycles : nat) :
  forall prior (s : State W) r s',
    good (world s) ->
    prior = time.zero \/ prior = t ->
    watch ecrClient MatchString config tagRegexp pages cycles prior s
    = (r, s') ->
    forall a, r <> Ret a.
Proof.
  induction cycles as [|cycles IH]; intros prior s r s' Hg Hp Hrun a.
  - inversion Hrun; subst. discriminate.
  - rewrite watch_S, cycle_eq in Hrun.
    destruct (observe ecrClient MatchString config tagRegexp pages s)
      as [[current|code|] s1] eqn:Ho;
      apply (observe_steady _ _ _ _ Hg) in Ho as [Hg' Ht];
      try (inversion Hrun; subst; discriminate).
    rewrite (Ht current eq_refl) in Hrun.
    assert (Hd : detected prior t = false).
    { destruct Hp as [->| ->]; [apply detected_zero_prior|].
      unfold detected, time.After. rewrite Z.ltb_irrefl. apply andb_false_r. }
    rewrite Hd in Hrun. eapply IH; [|right; reflexivity|exact Hrun].
    exact Hg'.
Qed.

End Steady.

(** X8. Lines 106 to 112: while the newest matching push time the registry
    reports stays the same, the process does not exit with success.  If
    every describe call that succeeds yields details whose newest push
    time is [t], then whatever else the registry does, [main] after a
    successful start-up has not returned: it is still polling, or a
    registry error has ended it with status 1. *)
Theorem unchanged_newest_never_exits_0
        (W Regexp : Type) (ecrClient : ECR W)
        (MatchString : Regexp -> string -> bool) (env : Startup Regexp)
        (config : Config) (tagRegexp : Regexp) (pages cycles : nat)
        (good : W -> Prop) (t : time.Time) (s s' : State W) (r : Res unit) :
  started env config tagRegexp ->
  good (world s) ->
  (forall input w r w',
      good w -> ecr_ListImages ecrClient input w = (r, w') -> good w') ->
  (forall input w r w',
      good w -> ecr_DescribeImages ecrClient input w = (r, w') ->
      good w'
      /\ forall out,
           r = inr out ->
           fst (currentMostRecent (DescribeImagesOutput.ImageDetails out))
           = t) ->
  main ecrClient MatchString env pages cycles s = (r, s') ->
  exitStatus r <> Some 0
  /\ (r = Running \/ r = Exit 1).
Proof.
  intros Hst Hg Hlist Hdesc Hrun.
  pose proof Hrun as Hrun'.
  rewrite (main_started _ _ _ _ _ _ _ _ Hst) in Hrun.
  pose proof (watch_steady ecrClient MatchString config tagRegexp good t
                Hlist Hdesc pages cycles time.zero
                (after s [EvLog LogRunning]) r s' Hg
                (or_introl eq_refl) Hrun) as Hne.
  destruct Hst as (Hh & _).
  apply main_shape in Hrun' as (evs & _ & Hshape); [|exact Hh].
  destruct r as [a|code|].
  - now elim (Hne a).
  - destruct Hshape as [-> _]. split; [discriminate|now right].
  - split; [discriminate|now left].
Qed.

Lemma steadyScript_list (t : time.Time) input w r w' :
  steadyScript t w -> ecr_ListImages Script.client input w = (r, w') ->
  steadyScript t w'.
Proof.
  unfold steadyScript. simpl. destruct (Script.lists w);
    intros H Heq; inversion Heq; subst; exact H.
Qed.

Lemma steadyScript_describe (t : time.Time) input w r w' :
  steadyScript t w -> ecr_DescribeImages Script.client input w = (r, w') ->
  steadyScript t w'
  /\ forall out,
       r = inr out ->
       fst (currentMostRecent (DescribeImagesOutput.ImageDetails out)) = t.
Proof.
  unfold steadyScript. simpl.
  destruct (Script.describes w) as [|r0 rs] eqn:Hd;
    intros H Heq; inversion Heq; subst.
  - rewrite Hd. split; [constructor|discriminate].
  - inversion H; subst. simpl. split; [assumption|].
    intros out ->. assumption.
Qed.

(** Three polls see the same newest image, pushed at 100; the script then
    ends and the next list call fails: status 1, never 0. *)
Lemma unchanged_newest_never_exits_0_witness :
  let run := main Script.client regexp.MatchString (Script.env "^latest$")
                  1 5 (Script.start unchangedWorld) in
  exitStatus (fst run) <> Some 0
  /\ polls (trace (snd run)) = 3%nat.
Proof.
  intros run. split; [|reflexivity].
  apply (unchanged_newest_never_exits_0
           _ _ Script.client regexp.MatchString (Script.env "^latest$")
           Scenario.cfg Script.anchoredLatest 1 5 (steadyScript 100) 100
           (Script.start unchangedWorld) (snd run) (fst run)).
  - repeat split.
  - repeat constructor.
  - intros input w r w'. apply steadyScript_list.
  - intros input w r w'. apply steadyScript_describe.
  - vm_compute. reflexivity.
Defined.
